(** * Self-Driving-Car-Project: a shallow embedding of [Final.py]

    The script drives three pretrained models over a numbered sequence of
    frames.  The embedding keeps the script's own control flow and arithmetic
    and takes every call into OpenCV, Keras, YOLO, the filesystem, the clock
    and the keyboard as an explicit parameter.

    Numeric conventions.  Python floats that carry angles are modelled as
    real numbers, with [None] standing for NumPy's [nan]; pixel values and
    clock readings are modelled as rational numbers.  Rounding error is not
    modelled: every statement below is about the exact arithmetic the
    script's formulas denote. *)

From Stdlib Require Import ZArith QArith Qround Reals Rpower Lra Lia List String.
From Stdlib Require Import DecimalString.
From Stdlib Require DecimalNat.
From stdpp Require Import base gmap.
Import ListNotations.

Local Open Scope nat_scope.

(* ================================================================== *)
(** * Images *)
(* ================================================================== *)

(** A colour image is a [height x width x channels] array, a grayscale
    image a [height x width] array; rows come first, as in NumPy. *)
Definition pixel := list Q.
Definition image := list (list pixel).
Definition gray_image := list (list Z).

(** [img.shape] of a two-dimensional array: (number of rows, number of
    columns). *)
Definition shape (img : gray_image) : nat * nat :=
  (length img, length (hd [] img)).

(** [image / 255.0], elementwise; the quotient is kept in lowest terms. *)
Definition div255 (img : image) : image :=
  map (map (map (fun x => Qred (x / 255)))) img.

(** An image all of whose channel values are [v]. *)
Definition const_image (h w c : nat) (v : Q) : image :=
  repeat (repeat (repeat v c) w) h.

(** The part of OpenCV the steering path calls.  [resize img (w, h)] is
    [cv2.resize(img, (w, h))]: the target size is given width first. *)
Class Cv2Resize := { resize : image -> nat * nat -> image }.

(** A nearest-neighbour resize, one concrete instance of [Cv2Resize]. *)
Definition nn_resize (img : image) (dsize : nat * nat) : image :=
  let '(w, h) := dsize in
  let h0 := length img in
  let w0 := length (hd [] img) in
  map (fun y =>
         let row := nth (y * h0 / h) img [] in
         map (fun x => nth (x * w0 / w) row []) (seq 0 w))
      (seq 0 h).

(** Every channel value of [img] lies between [lo] and [hi]. *)
Definition channels_in (lo hi : Q) (img : image) : Prop :=
  Forall (Forall (Forall (fun x => (lo <= x)%Q /\ (x <= hi)%Q))) img.

(** The numbers of rows, of pixels in each row and of channels in each
    pixel. *)
Definition dims (img : image) : list (list nat) :=
  map (map (@length Q)) img.

(** A resize whose output channel values stay within the range of its
    input's, as every interpolation's do. *)
Definition keeps_range `{Cv2Resize} : Prop :=
  forall (lo hi : Q) (img : image) (dsize : nat * nat),
    channels_in lo hi img -> channels_in lo hi (resize img dsize).


(* ================================================================== *)
(** * SteeringAnglePredictor *)
(* ================================================================== *)

Module SteeringAnglePredictor.

(** The loaded Keras model: [model.predict(batch)[0][0]], in radians. *)
Class Model := { predict : list image -> R }.

Section Methods.
Context `{Cv2Resize} `{Model}.

(** [preprocess_image]: resize to 200x66, divide by 255, add a batch
    dimension. *)
Definition preprocess_image (img : image) : list image :=
  let img := resize img (200, 66) in
  let img := div255 img in
  [img].

(** [predict_angle]: radians to degrees. *)
Definition predict_angle (img : image) : R :=
  let batch := preprocess_image img in
  let radian_angle := predict batch in
  (radian_angle * 180 / PI)%R.
End Methods.

End SteeringAnglePredictor.

(* ================================================================== *)
(** * colorsys.hsv_to_rgb and the class palette *)
(* ================================================================== *)

(** Python's [int(x)] on a float: truncation towards zero. *)
Definition py_int (x : Q) : Z := Z.quot (Qnum x) (Zpos (Qden x)).

(** [colorsys.hsv_to_rgb], line by line. *)
Definition hsv_to_rgb (h s v : Q) : Q * Q * Q :=
  if Qeq_bool s 0 then (v, v, v)
  else
    let i := py_int (h * 6) in
    let f := (h * 6 - inject_Z i)%Q in
    let p := (v * (1 - s))%Q in
    let q := (v * (1 - s * f))%Q in
    let t := (v * (1 - s * (1 - f)))%Q in
    let i := (i mod 6)%Z in
    if (i =? 0)%Z then (v, t, p)
    else if (i =? 1)%Z then (q, v, p)
    else if (i =? 2)%Z then (p, v, t)
    else if (i =? 3)%Z then (p, q, v)
    else if (i =? 4)%Z then (t, p, v)
    else (v, p, q).

Definition color := (Z * Z * Z)%type.

(** The body of the [for] loop of [_generate_colors] for one index. *)
Definition class_color (num_classes i : nat) : color :=
  let hue := (inject_Z (Z.of_nat i) / inject_Z (Z.of_nat num_classes))%Q in
  let '(r, g, b) := hsv_to_rgb hue (9 # 10) (9 # 10) in
  (py_int (r * 255), py_int (g * 255), py_int (b * 255)).

(** [_generate_colors]: the loop appends one colour per index of
    [range(num_classes)]. *)
Definition _generate_colors (num_classes : nat) : list color :=
  fold_left (fun colors i => colors ++ [class_color num_classes i])
            (seq 0 num_classes) [].








(* ================================================================== *)
(** * Exceptions and Python indexing *)
(* ================================================================== *)

Inductive exception := IndexError | KeyError | ValueError | TypeError.

Inductive result (A : Type) :=
| Ok (a : A)
| Raise (e : exception).
Arguments Ok {A} a.
Arguments Raise {A} e.

(** [l[i]] on a Python list: a negative index counts from the end, and an
    index out of range raises [IndexError] (here: [None]). *)
Definition py_index {A} (l : list A) (i : Z) : option A :=
  let n := Z.of_nat (length l) in
  if (0 <=? i)%Z then nth_error l (Z.to_nat i)
  else if (- n <=? i)%Z then nth_error l (Z.to_nat (n + i))
  else None.

(* ================================================================== *)
(** * ImageSegmentation, over a store of mutable arrays *)
(* ================================================================== *)

Module ImageSegmentation.

Definition polygon := list (Q * Q).

(** One detection box of an ultralytics result. *)
Record box := { cls : Q; conf : Q; xyxy : Q * Q * Q * Q }.

(** One ultralytics result: [masks] is [None] or the polygons [masks.xy]. *)
Record detections := { masks : option (list polygon); boxes : list box }.

(** A loaded YOLO model: its class-name dictionary and
    [predict(img, conf=c)]. *)
Record yolo := { names : gmap Z string; predict : image -> Q -> list detections }.

(** The drawing part of OpenCV, and the formatting of a confidence
    ([f"{x:.2f}"]).  Font, scale and thickness of the text calls are the
    constants of the script. *)
Class Cv2Draw := {
  fillPoly : image -> list (list (Z * Z)) -> color -> image;
  rectangle : image -> Z * Z -> Z * Z -> color -> Z -> image;
  getTextSize : string -> Z * Z;
  putText : image -> string -> Z * Z -> color -> image;
  addWeighted : image -> Q -> image -> Q -> Q -> image;
  format_2f : Q -> string
}.

(** Arrays live in a store; a Python variable holds a reference. *)
Abbreviation heap := (gmap nat image).

(** A new array object. *)
Definition alloc (h : heap) (v : image) : heap * nat :=
  let r := fresh (dom h) in (<[r := v]> h, r).

(** An OpenCV call that draws into the array behind [r]. *)
Definition draw (h : heap) (r : nat) (f : image -> image) : heap :=
  alter f r h.

(** [h'] has the same objects as [h] and differs from it at most in the
    array behind [overlay]. *)
Definition only_touches (overlay : nat) (h h' : gmap nat image) : Prop :=
  dom h' = dom h /\ forall r : nat, r <> overlay -> h' !! r = h !! r.

(** [np.int32([mask])] *)
Definition int32_points (mask : polygon) : list (list (Z * Z)) :=
  [map (fun p => (py_int (fst p), py_int (snd p))) mask].

Record segmentation := {
  lane_model : yolo;
  object_model : yolo;
  colors : list color
}.

Definition __init__ (lane object : yolo) : segmentation :=
  {| lane_model := lane;
     object_model := object;
     colors := _generate_colors (size (names object)) |}.

Section Methods.
Context `{Cv2Draw}.

Definition _draw_lane_overlay (h : heap) (overlay : nat)
    (lane_results : list detections) : heap :=
  fold_left
    (fun h res =>
       match masks res with
       | None => h
       | Some xy =>
           fold_left
             (fun h mask =>
                draw h overlay
                     (fun im => fillPoly im (int32_points mask) (144, 238, 144)%Z))
             xy h
       end)
    lane_results h.

(** The body of the inner loop of [_draw_object_overlay]. *)
Definition draw_object (self : segmentation) (h : heap) (overlay : nat)
    (mask : polygon) (b : box) : heap * result unit :=
  let class_id := py_int (cls b) in
  match py_index (colors self) class_id with
  | None => (h, Raise IndexError)
  | Some color =>
      let h := draw h overlay (fun im => fillPoly im (int32_points mask) color) in
      let '(x1, y1, x2, y2) := xyxy b in
      let '(x1, y1, x2, y2) := (py_int x1, py_int y1, py_int x2, py_int y2) in
      let h := draw h overlay (fun im => rectangle im (x1, y1) (x2, y2) color 2) in
      match names (object_model self) !! class_id with
      | None => (h, Raise KeyError)
      | Some name =>
          let label := String.append name (String.append ": " (format_2f (conf b))) in
          let '(label_w, label_h) := getTextSize label in
          let h := draw h overlay
                     (fun im => rectangle im (x1, y1 - 20) (x1 + label_w, y1) color (-1))%Z in
          let h := draw h overlay
                     (fun im => putText im label (x1, y1 - 5)%Z (255, 255, 255)%Z) in
          (h, Ok tt)
      end
  end.

Fixpoint draw_objects (self : segmentation) (h : heap) (overlay : nat)
    (items : list (polygon * box)) : heap * result unit :=
  match items with
  | [] => (h, Ok tt)
  | (mask, b) :: rest =>
      match draw_object self h overlay mask b with
      | (h, Ok _) => draw_objects self h overlay rest
      | (h, Raise e) => (h, Raise e)
      end
  end.

Fixpoint _draw_object_overlay (self : segmentation) (h : heap) (overlay : nat)
    (object_results : list detections) : heap * result unit :=
  match object_results with
  | [] => (h, Ok tt)
  | res :: rest =>
      match masks res with
      | None => _draw_object_overlay self h overlay rest
      | Some xy =>
          match draw_objects self h overlay (combine xy (boxes res)) with
          | (h, Ok _) => _draw_object_overlay self h overlay rest
          | (h, Raise e) => (h, Raise e)
          end
      end
  end.

(** [process(img, alpha)]: [img] is a reference into the store.  The two
    predictions only read the array; both are joined before drawing.  (A
    reference that is not in the store has no counterpart in Python; the
    embedding answers [TypeError] there.) *)
Definition process (self : segmentation) (h : heap) (img : nat) (alpha : Q)
    : heap * result nat :=
  match h !! img with
  | None => (h, Raise TypeError)
  | Some v =>
      let '(h, overlay) := alloc h v in
      let lane_results := predict (lane_model self) v (1 # 2) in
      let object_results := predict (object_model self) v (1 # 2) in
      let h := _draw_lane_overlay h overlay lane_results in
      match _draw_object_overlay self h overlay object_results with
      | (h, Raise e) => (h, Raise e)
      | (h, Ok _) =>
          match h !! overlay, h !! img with
          | Some o, Some v =>
              let '(h, out) := alloc h (addWeighted o alpha v (1 - alpha) 0) in
              (h, Ok out)
          | _, _ => (h, Raise TypeError)
          end
      end
  end.

(** The lane polygons of a list of results, in drawing order, and the array
    obtained by filling them one after the other. *)
Definition lane_polygons (lane_results : list detections) : list polygon :=
  flat_map (fun res => match masks res with Some xy => xy | None => [] end) lane_results.

Definition lane_paint (lane_results : list detections) (im : image) : image :=
  fold_left (fun im mask => fillPoly im (int32_points mask) (144, 238, 144)%Z)
            (lane_polygons lane_results) im.

(** The class ids a result refers to have a colour and a name. *)
Definition box_ok (self : segmentation) (b : box) : Prop :=
  is_Some (py_index (colors self) (py_int (cls b))) /\
  is_Some (names (object_model self) !! py_int (cls b)).

Definition detections_ok (self : segmentation) (res : detections) : Prop :=
  Forall (box_ok self) (boxes res).
End Methods.

End ImageSegmentation.


(* ================================================================== *)
(** * SelfDrivingCarSimulator *)
(* ================================================================== *)

Module SelfDrivingCarSimulator.

(** What the loop reads from outside: the two [cv2.imread] modes, the
    successive results of [time.time()] (one per call, in call order), and
    the result of the [cv2.waitKey(1)] made in each iteration. *)
Record world := {
  imread : string -> option image;
  imread_gray : string -> option gray_image;
  time : nat -> Q;
  waitKey : nat -> Z
}.

(** The simulator object.  The two model fields stand for the bound methods
    [steering_model.predict_angle] and [segmentation_model.process]. *)
Record simulator := {
  steering_model : image -> R;
  segmentation_model : image -> image;
  data_path : string;
  img : gray_image;
  smoothed_angle : option R;
  cols : nat;
  rows : nat
}.

(** [__init__]: both path arguments are received and not read.  A missing
    wheel image makes [cv2.imread] return [None], on which [.shape] fails. *)
Definition __init__ (w : world) (steering : image -> R) (segmentation : image -> image)
    (data_path img_path : string) : option simulator :=
  match imread_gray w "data/steering_wheel_image.jpg" with
  | None => None
  | Some wheel =>
      let '(c, r) := shape wheel in
      Some {| steering_model := steering;
              segmentation_model := segmentation;
              data_path := "data/driving_dataset";
              img := wheel;
              smoothed_angle := Some 0%R;
              cols := c;
              rows := r |}
  end.

(** [pow(x, y)] for a base that is never negative here (it is an absolute
    value): zero to a positive power is zero. *)
Definition py_pow (x y : R) : R :=
  if Req_EM_T x 0 then 0%R else Rpower x y.

(** The update of [smoothed_angle] in [_update_display].  The quotient is
    taken last, by [abs(degrees - smoothed_angle)]; on NumPy scalars a zero
    divisor yields [nan], which every later update propagates. *)
Definition smooth (degrees : R) (smoothed : option R) : option R :=
  match smoothed with
  | None => None
  | Some s =>
      let d := (degrees - s)%R in
      if Req_EM_T (Rabs d) 0 then None
      else Some (s + 0.2 * py_pow (Rabs d) (2 / 3) * d / Rabs d)%R
  end.

(** The arguments of [cv2.getRotationMatrix2D(center, angle, scale)]; the
    centre is given as (x, y). *)
Record rotation := { center : Q * Q; angle : option R; scale : Q }.

(** The call [cv2.warpAffine(src, M, dsize)]; [dsize] is (width, height) of
    the image it returns. *)
Record warp := { src : gray_image; M : rotation; dsize : nat * nat }.

Definition warp_width (d : warp) : nat := fst (dsize d).
Definition warp_height (d : warp) : nat := snd (dsize d).

Inductive shown := Colour (f : image) | Wheel (d : warp).

Inductive event :=
| PrintAngle (degrees : R)
| Imshow (window : string) (content : shown)
| Sleep (d : Q)
| PrintNotFound (path : string)
| DestroyAllWindows.

(** [x / 2] on Python ints is a float. *)
Definition half (n : nat) : Q := Qred (inject_Z (Z.of_nat n) / 2).

(** The steering-wheel rotation of [_update_display]. *)
Definition wheel_rotation (self : simulator) (smoothed : option R) : warp :=
  {| src := img self;
     M := {| center := (half (cols self), half (rows self));
             angle := option_map Ropp smoothed;
             scale := 1 |};
     dsize := (cols self, rows self) |}.

Definition set_smoothed_angle (self : simulator) (a : option R) : simulator :=
  {| steering_model := steering_model self;
     segmentation_model := segmentation_model self;
     data_path := data_path self;
     img := img self;
     smoothed_angle := a;
     cols := cols self;
     rows := rows self |}.

Definition _update_display (self : simulator) (degrees : R)
    (segmented_image full_image : image) : simulator * list event :=
  let smoothed := smooth degrees (smoothed_angle self) in
  let dst := wheel_rotation self smoothed in
  (set_smoothed_angle self smoothed,
   [PrintAngle degrees;
    Imshow "Original Frame" (Colour full_image);
    Imshow "Segmented Frame" (Colour segmented_image);
    Imshow "Steering Wheel" (Wheel dst)]).

(** [f"{self.data_path}/{i}.jpg"] *)
Definition frame_path (self : simulator) (i : nat) : string :=
  String.append (data_path self)
    (String.append "/" (String.append (NilEmpty.string_of_uint (Nat.to_uint i)) ".jpg")).

(** [full_image[-150:]]: the last 150 rows, or all of them when there are
    fewer. *)
Definition bottom_150 (full_image : image) : image :=
  skipn (length full_image - 150) full_image.

Definition Qltb (x y : Q) : bool := negb (Qle_bool y x).

(** Lines 121-122.  The clock is read at [tick] for the test and, when the
    test passes, again at [tick + 1] for the argument of [time.sleep], which
    raises [ValueError] on a negative argument. *)
Inductive throttled :=
| NoSleep (tick : nat)
| Slept (d : Q) (tick : nat)
| SleepRaised (d : Q).

Definition throttle (w : world) (tick : nat) (start_time frame_interval : Q) : throttled :=
  if Qltb (time w tick - start_time) frame_interval then
    let d := (frame_interval - (time w (S tick) - start_time))%Q in
    if Qltb d 0 then SleepRaised d else Slept d (S (S tick))
  else NoSleep (S tick).

Inductive exit := Exhausted | UserQuit.

Inductive outcome :=
| Returned (why : exit) (self : simulator) (i : nat) (log : list event)
| Raised (e : exception) (self : simulator) (i : nat) (log : list event)
| OutOfFuel.

Section Loop.
Context `{Cv2Resize}.

(** Line 112: the array handed to [predict_angle]. *)
Definition resized_image (full_image : image) : image :=
  div255 (resize (bottom_150 full_image) (200, 66)).

(** The [while True] loop of [start_simulation]; [fuel] bounds the number of
    iterations, [tick] counts the clock readings made so far. *)
Fixpoint loop (fuel : nat) (w : world) (frame_interval : Q)
    (self : simulator) (i tick : nat) (log : list event) : outcome :=
  match fuel with
  | O => OutOfFuel
  | S fuel =>
      let start_time := time w tick in
      match imread w (frame_path self i) with
      | None =>
          Returned Exhausted self i
                   (log ++ [PrintNotFound (frame_path self i); DestroyAllWindows])
      | Some full_image =>
          let degrees := steering_model self (resized_image full_image) in
          let segmented_image := segmentation_model self full_image in
          let '(self', shown) := _update_display self degrees segmented_image full_image in
          let log := log ++ shown in
          let key := waitKey w i in
          let i' := S i in
          match throttle w (S tick) start_time frame_interval with
          | SleepRaised d => Raised ValueError self' i' log
          | Slept d tick' =>
              if (Z.land key 255 =? 113)%Z
              then Returned UserQuit self' i' (log ++ [Sleep d; DestroyAllWindows])
              else loop fuel w frame_interval self' i' tick' (log ++ [Sleep d])
          | NoSleep tick' =>
              if (Z.land key 255 =? 113)%Z
              then Returned UserQuit self' i' (log ++ [DestroyAllWindows])
              else loop fuel w frame_interval self' i' tick' log
          end
      end
  end.

(** The new state and the calls made by the display update of the iteration
    that loaded [full_image]. *)
Definition iteration_display (self : simulator) (full_image : image)
    : simulator * list event :=
  _update_display self (steering_model self (resized_image full_image))
                  (segmentation_model self full_image) full_image.

Definition start_simulation (fuel : nat) (w : world) (self : simulator)
    (frame_interval : Q) : outcome :=
  loop fuel w frame_interval self 0 0 [].

(** The script's last two lines: construct, then run. *)
Definition main (fuel : nat) (w : world) (steering : image -> R)
    (segmentation : image -> image) (data_path img_path : string) : option outcome :=
  match __init__ w steering segmentation data_path img_path with
  | None => None
  | Some self => Some (start_simulation fuel w self (1 # 30))
  end.
End Loop.

(** The frames shown in the "Original Frame" window, in order: one per
    iteration that reached [_update_display]. *)
Fixpoint frames_shown (log : list event) : list image :=
  match log with
  | [] => []
  | Imshow window (Colour f) :: rest =>
      if String.eqb window "Original Frame" then f :: frames_shown rest
      else frames_shown rest
  | _ :: rest => frames_shown rest
  end.

(** The wheel rotations requested, in order. *)
Fixpoint wheels_shown (log : list event) : list warp :=
  match log with
  | [] => []
  | Imshow _ (Wheel d) :: rest => d :: wheels_shown rest
  | _ :: rest => wheels_shown rest
  end.

(** The arguments passed to [time.sleep], in order. *)
Fixpoint sleeps (log : list event) : list Q :=
  match log with
  | [] => []
  | Sleep d :: rest => d :: sleeps rest
  | _ :: rest => sleeps rest
  end.

(** The smoothed angle after [n] frames that all predict [D], starting from
    the constructor's value. *)
Fixpoint smooth_iter (D : R) (n : nat) : option R :=
  match n with
  | O => Some 0%R
  | S n => smooth D (smooth_iter D n)
  end.

(** The iterate reached after [k] frames is defined and further than
    [0.008 = 0.2^3] from the target [D]. *)
Definition far_from (D : R) (k : nat) : Prop :=
  match smooth_iter D k with
  | Some s => (0.008 < Rabs (D - s))%R
  | None => False
  end.

(** The smoothed angle after display updates for the predicted angles
    [angles], in order. *)
Definition smooth_all (angles : list R) (start : option R) : option R :=
  fold_left (fun s degrees => smooth degrees s) angles start.

(** The predicted angles printed, in order. *)
Fixpoint printed_angles (log : list event) : list R :=
  match log with
  | [] => []
  | PrintAngle degrees :: rest => degrees :: printed_angles rest
  | _ :: rest => printed_angles rest
  end.

(** The number of [cv2.destroyAllWindows()] calls. *)
Fixpoint windows_destroyed (log : list event) : nat :=
  match log with
  | [] => 0
  | DestroyAllWindows :: rest => S (windows_destroyed rest)
  | _ :: rest => windows_destroyed rest
  end.

(** The test of line 124 on the result of [cv2.waitKey]. *)
Definition quits (key : Z) : bool := (Z.land key 255 =? 113)%Z.

(** [Q] holds of the final state, the final frame index and the log of a
    run that came to an end, by returning or by raising. *)
Definition ended (o : outcome) (Q : simulator -> nat -> list event -> Prop) : Prop :=
  match o with
  | Returned _ self n log => Q self n log
  | Raised _ self n log => Q self n log
  | OutOfFuel => True
  end.

(** Two simulator states that differ at most in [smoothed_angle]. *)
Definition same_setup (a b : simulator) : Prop :=
  steering_model a = steering_model b /\
  segmentation_model a = segmentation_model b /\
  data_path a = data_path b /\
  img a = img b /\
  cols a = cols b /\
  rows a = rows b.


End SelfDrivingCarSimulator.


(* ================================================================== *)
(** * The steering path of one loop iteration *)
(* ================================================================== *)

(** The batch that reaches [model.predict] when the loop hands
    [resized_image full_image] to [predict_angle]. *)
Definition model_input `{Cv2Resize} (full_image : image) : list image :=
  SteeringAnglePredictor.preprocess_image
    (SelfDrivingCarSimulator.resized_image full_image).

(** What the docstring and the comments of the steering path describe: the
    bottom 150 rows, resized, with pixel values divided by 255 once. *)
Definition normalised_once `{Cv2Resize} (full_image : image) : list image :=
  [div255 (resize (SelfDrivingCarSimulator.bottom_150 full_image) (200, 66))].

(** A resize that keeps a uniformly coloured image uniformly coloured, as
    every interpolation does. *)
Definition keeps_uniform `{Cv2Resize} : Prop :=
  forall (h w : nat) (v : Q),
    0 < h -> 0 < w ->
    resize (const_image h w 3 v) (200, 66) = const_image 66 200 3 v.

(* ================================================================== *)
(** * Concrete surroundings used to run the embedding *)
(* ================================================================== *)

Module Example.
Import SelfDrivingCarSimulator.

Definition nearest_neighbour : Cv2Resize := {| resize := nn_resize |}.


(** A 2x2 white frame. *)
Definition white_frame : image := const_image 2 2 3 255.

(** A steering-wheel image of 100 rows and 200 columns. *)
Definition wheel_100x200 : gray_image := repeat (repeat 0%Z 200) 100.

(** A dataset with [0.jpg] and [1.jpg] and no [2.jpg]; no key is ever
    pressed ([cv2.waitKey] returns -1).  The clock reads 0 at the start of
    the first iteration, 0.033333 at the test of line 121 and 0.033334, one
    microsecond later, when line 122 reads it again. *)
Definition dataset (path : string) : option image :=
  if String.eqb path "data/driving_dataset/0.jpg" then Some white_frame
  else if String.eqb path "data/driving_dataset/1.jpg" then Some white_frame
  else None.

Definition slow_clock (n : nat) : Q :=
  match n with
  | O => 0%Q
  | S O => (33333 # 1000000)%Q
  | _ => (33334 # 1000000)%Q
  end.

Definition slow_world : world :=
  {| imread := dataset;
     imread_gray := fun _ => Some wheel_100x200;
     time := slow_clock;
     waitKey := fun _ => (-1)%Z |}.

(** The simulator that [__init__] builds in these surroundings, with a
    steering model that always answers 1 degree and a segmentation that
    returns its frame. *)
Definition wheel_simulator : simulator :=
  {| steering_model := fun _ => 1%R;
     segmentation_model := fun f => f;
     data_path := "data/driving_dataset";
     img := wheel_100x200;
     smoothed_angle := Some 0%R;
     cols := 100;
     rows := 200 |}.

(** The same surroundings with a clock that stands still. *)
Definition still_world : world :=
  {| imread := dataset;
     imread_gray := fun _ => Some wheel_100x200;
     time := fun _ => 0%Q;
     waitKey := fun _ => (-1)%Z |}.

(** A stand-in for the drawing calls: filling paints every pixel of the
    array, the other calls leave it as it is, blending is pixelwise. *)
Definition paint (im : image) (c : color) : image :=
  let '(r, g, b) := c in
  map (map (fun _ => [inject_Z r; inject_Z g; inject_Z b])) im.

Definition blend (o : image) (a : Q) (v : image) (b g : Q) : image :=
  map (fun rows =>
         map (fun px => map (fun xy => Qred (a * fst xy + b * snd xy + g)) (combine (fst px) (snd px)))
             (combine (fst rows) (snd rows)))
      (combine o v).

Definition toy_draw : ImageSegmentation.Cv2Draw :=
  {| ImageSegmentation.fillPoly := fun im _ c => paint im c;
     ImageSegmentation.rectangle := fun im _ _ _ _ => im;
     ImageSegmentation.getTextSize := fun label => (10 * Z.of_nat (String.length label), 12)%Z;
     ImageSegmentation.putText := fun im _ _ _ => im;
     ImageSegmentation.addWeighted := blend;
     ImageSegmentation.format_2f := fun _ => "0.90"%string |}.

Definition square : ImageSegmentation.polygon := [(0, 0); (1, 0); (1, 1); (0, 1)]%Q.

(** A lane model that finds one lane, and an object model with the single
    class "car" that finds one car. *)
Definition lane_yolo : ImageSegmentation.yolo :=
  {| ImageSegmentation.names := {[ 0%Z := "lane"%string ]};
     ImageSegmentation.predict := fun _ _ =>
       [ {| ImageSegmentation.masks := Some [square]; ImageSegmentation.boxes := [] |} ] |}.

Definition car_box : ImageSegmentation.box :=
  {| ImageSegmentation.cls := 0; ImageSegmentation.conf := 9 # 10;
     ImageSegmentation.xyxy := (0, 0, 1, 1)%Q |}.

Definition object_yolo : ImageSegmentation.yolo :=
  {| ImageSegmentation.names := {[ 0%Z := "car"%string ]};
     ImageSegmentation.predict := fun _ _ =>
       [ {| ImageSegmentation.masks := Some [square];
            ImageSegmentation.boxes := [car_box] |} ] |}.

Definition toy_segmentation : ImageSegmentation.segmentation :=
  ImageSegmentation.__init__ lane_yolo object_yolo.

(** A store holding one frame, behind reference 0. *)
Definition one_frame : gmap nat image := {[ 0 := white_frame ]}.

End Example.

(* ================================================================== *)
(** * Further surroundings *)
(* ================================================================== *)

Module Scenes.
Import SelfDrivingCarSimulator.

(** A box whose class id, 7, has neither a colour nor a name in a
    one-class model. *)
Definition stray_box : ImageSegmentation.box :=
  {| ImageSegmentation.cls := 7; ImageSegmentation.conf := 1 # 2;
     ImageSegmentation.xyxy := (0, 0, 1, 1)%Q |}.

(** A detection with a polygon and the stray box, and one with the stray
    box and no masks. *)
Definition stray_detection : ImageSegmentation.detections :=
  {| ImageSegmentation.masks := Some [Example.square];
     ImageSegmentation.boxes := [stray_box] |}.

Definition maskless_detection : ImageSegmentation.detections :=
  {| ImageSegmentation.masks := None; ImageSegmentation.boxes := [stray_box] |}.

Definition car_detection : ImageSegmentation.detections :=
  {| ImageSegmentation.masks := Some [Example.square];
     ImageSegmentation.boxes := [Example.car_box] |}.

(** A one-class model that reports only the maskless detection, and the
    segmentation built from two of them. *)
Definition maskless_yolo : ImageSegmentation.yolo :=
  {| ImageSegmentation.names := {[ 0%Z := "car"%string ]};
     ImageSegmentation.predict := fun _ _ => [maskless_detection] |}.

Definition maskless_segmentation : ImageSegmentation.segmentation :=
  ImageSegmentation.__init__ maskless_yolo maskless_yolo.

(** A square steering-wheel image, 240 by 240. *)
Definition wheel_240 : gray_image := repeat (repeat 0%Z 240) 240.

Definition square_world : world :=
  {| imread := Example.dataset;
     imread_gray := fun _ => Some wheel_240;
     time := fun _ => 0%Q;
     waitKey := fun _ => (-1)%Z |}.


End Scenes.

(* ================================================================== *)
(** * The smoothing filter *)
(* ================================================================== *)

Section Smoothing.
Import SelfDrivingCarSimulator.
Local Open Scope R_scope.

Lemma py_pow_pos (x y : R) : 0 < x -> py_pow x y = Rpower x y.
Proof.
  intros Hx. unfold py_pow.
  destruct (Req_EM_T x 0) as [E | _]; [lra | reflexivity].
Qed.

Lemma Rpower_pos (x y : R) : 0 < Rpower x y.
Proof. unfold Rpower. apply exp_pos. Qed.

Lemma cube_root_0008 : Rpower 0.008 (1 / 3) = 0.2.
Proof.
  replace 0.008 with (Rpower 0.2 (INR 3)).
  - rewrite Rpower_mult.
    replace (INR 3 * (1 / 3)) with 1 by (simpl; field).
    apply Rpower_1; lra.
  - rewrite Rpower_pow by lra. simpl; lra.
Qed.

Lemma Rpower_split (e : R) : 0 < e -> e = Rpower e (2 / 3) * Rpower e (1 / 3).
Proof.
  intros He. rewrite <- Rpower_plus.
  replace (2 / 3 + 1 / 3) with 1 by field.
  symmetry; apply Rpower_1; exact He.
Qed.

(** Beyond [0.008] the correction is smaller than the error. *)
Lemma correction_lt_error (e : R) : 0.008 < e -> 0.2 * Rpower e (2 / 3) < e.
Proof.
  intros He.
  assert (H1 : 0.2 < Rpower e (1 / 3)).
  { rewrite <- cube_root_0008. apply Rlt_Rpower_l; lra. }
  assert (H2 := Rpower_pos e (2 / 3)).
  assert (H3 := Rpower_split e ltac:(lra)).
  nra.
Qed.

(** Below [0.008] the correction is larger than the error. *)
Lemma correction_gt_error (e : R) : 0 < e < 0.008 -> e < 0.2 * Rpower e (2 / 3).
Proof.
  intros He.
  assert (H1 : Rpower e (1 / 3) < 0.2).
  { rewrite <- cube_root_0008. apply Rlt_Rpower_l; lra. }
  assert (H2 := Rpower_pos e (2 / 3)).
  assert (H3 := Rpower_split e ltac:(lra)).
  nra.
Qed.

(** The update written with the sign of the error made explicit. *)
Lemma smooth_above (D s : R) :
  s < D -> smooth D (Some s) = Some (s + 0.2 * Rpower (D - s) (2 / 3)).
Proof.
  intros Hlt. unfold smooth.
  rewrite (Rabs_right (D - s)) by lra.
  destruct (Req_EM_T (D - s) 0) as [E | NE]; [lra |].
  rewrite py_pow_pos by lra.
  f_equal. field. lra.
Qed.

Lemma smooth_below (D s : R) :
  D < s -> smooth D (Some s) = Some (s - 0.2 * Rpower (s - D) (2 / 3)).
Proof.
  intros Hlt. unfold smooth.
  rewrite (Rabs_left (D - s)) by lra.
  destruct (Req_EM_T (- (D - s)) 0) as [E | NE]; [lra |].
  rewrite py_pow_pos by lra.
  replace (- (D - s)) with (s - D) by ring.
  f_equal. field. lra.
Qed.

Lemma smooth_equal (s : R) : smooth s (Some s) = None.
Proof.
  unfold smooth.
  replace (s - s) with 0 by ring. rewrite Rabs_R0.
  destruct (Req_EM_T 0 0) as [_ | NE]; [reflexivity | contradiction].
Qed.

(** One update from further than [0.008] away: defined, same side, closer. *)
Lemma smooth_step_far (D s : R) :
  0.008 < Rabs (D - s) ->
  exists s', smooth D (Some s) = Some s' /\
             0 < (D - s') * (D - s) /\
             Rabs (D - s') < Rabs (D - s).
Proof.
  intros Hfar.
  destruct (Rlt_le_dec s D) as [Hlt | Hge].
  - rewrite (Rabs_right (D - s)) in * by lra.
    assert (Hc := correction_lt_error (D - s) Hfar).
    assert (Hp := Rpower_pos (D - s) (2 / 3)).
    exists (s + 0.2 * Rpower (D - s) (2 / 3)). split; [apply smooth_above; lra |].
    split; [nra |]. rewrite Rabs_right by lra. lra.
  - assert (Hne : D < s).
    { destruct Hge as [H | H]; [exact H |].
      subst s. replace (D - D) with 0 in Hfar by ring.
      rewrite Rabs_R0 in Hfar. lra. }
    rewrite (Rabs_left (D - s)) in * by lra.
    assert (Hc := correction_lt_error (s - D) ltac:(lra)).
    assert (Hp := Rpower_pos (s - D) (2 / 3)).
    exists (s - 0.2 * Rpower (s - D) (2 / 3)). split; [apply smooth_below; lra |].
    split; [nra |]. rewrite Rabs_left by lra. lra.
Qed.

(** One update from within [0.008] of the target crosses it. *)
Lemma smooth_step_near (D s : R) :
  0 < Rabs (D - s) < 0.008 ->
  exists s', smooth D (Some s) = Some s' /\ (D - s') * (D - s) < 0.
Proof.
  intros [Hpos Hnear].
  destruct (Rlt_le_dec s D) as [Hlt | Hge].
  - rewrite (Rabs_right (D - s)) in * by lra.
    assert (Hc := correction_gt_error (D - s) ltac:(lra)).
    exists (s + 0.2 * Rpower (D - s) (2 / 3)). split; [apply smooth_above; lra | nra].
  - assert (Hne : D < s).
    { destruct Hge as [H | H]; [exact H |].
      subst s. replace (D - D) with 0 in Hpos by ring.
      rewrite Rabs_R0 in Hpos. lra. }
    rewrite (Rabs_left (D - s)) in * by lra.
    assert (Hc := correction_gt_error (s - D) ltac:(lra)).
    exists (s - 0.2 * Rpower (s - D) (2 / 3)). split; [apply smooth_below; lra | nra].
Qed.

Lemma Rpower_thousandth : Rpower (1 / 1000) (2 / 3) = 1 / 100.
Proof.
  replace (1 / 1000) with (Rpower (1 / 10) (INR 3)).
  - rewrite Rpower_mult.
    replace (INR 3 * (2 / 3)) with (INR 2) by (simpl; field).
    rewrite Rpower_pow by lra. simpl; lra.
  - rewrite Rpower_pow by lra. simpl; lra.
Qed.


(** C3, refuted as stated.  With the constant target [D = 0.001] the first
    update from [0] lands on [0.002]: it has crossed [D], and it is exactly
    as far from [D] as the starting point was. *)
Lemma smoothing_overshoots_small_target :
  smooth_iter (1 / 1000) 0 = Some 0 /\
  smooth_iter (1 / 1000) 1 = Some (2 / 1000) /\
  0 < 1 / 1000 < 2 / 1000 /\
  Rabs (1 / 1000 - 2 / 1000) = Rabs (1 / 1000 - 0).
Proof.
  split; [reflexivity |]. split.
  - change (smooth_iter (1 / 1000) 1) with (smooth (1 / 1000) (Some 0)).
    rewrite smooth_above by lra.
    replace (1 / 1000 - 0) with (1 / 1000) by ring.
    rewrite Rpower_thousandth. f_equal. lra.
  - split; [lra |].
    replace (1 / 1000 - 2 / 1000) with (- (1 / 1000)) by lra.
    replace (1 / 1000 - 0) with (1 / 1000) by lra.
    apply Rabs_Ropp.
Qed.

(** C3, amended.  For a constant predicted angle [D], as long as every
    smoothed angle reached so far, starting from [0], is further than
    [0.008] from [D], the next smoothed angle is defined, lies on the
    starting side of [D], and is strictly closer to [D] than the current
    one. *)
Theorem smoothing_monotone_while_far (D : R) (n : nat) :
  (forall k : nat, (k <= n)%nat -> far_from D k) ->
  exists s s' : R,
    smooth_iter D n = Some s /\
    smooth_iter D (S n) = Some s' /\
    0 < (D - s') * (D - 0) /\
    Rabs (D - s') < Rabs (D - s).
Proof.
  intros Hfar.
  assert (Hinv : forall m : nat, (m <= n)%nat ->
            exists s, smooth_iter D m = Some s /\ 0 < (D - s) * (D - 0) /\
                      0.008 < Rabs (D - s)).
  { induction m as [| m IH]; intros Hm.
    - exists 0. split; [reflexivity |].
      specialize (Hfar 0%nat Hm). unfold far_from in Hfar. simpl in Hfar.
      split; [| exact Hfar].
      replace (D - 0) with D in * by ring.
      unfold Rabs in Hfar. destruct (Rcase_abs D); nra.
    - destruct (IH ltac:(lia)) as (s & Hs & Hside & Hd).
      destruct (smooth_step_far D s Hd) as (s' & Hs' & Hsame & _).
      exists s'. simpl. rewrite Hs. split; [exact Hs' |].
      specialize (Hfar (S m) Hm). unfold far_from in Hfar. simpl in Hfar.
      rewrite Hs, Hs' in Hfar. split; [| exact Hfar].
      assert (Hsq : 0 < (D - s) * (D - s)) by nra.
      nra. }
  destruct (Hinv n ltac:(lia)) as (s & Hs & Hside & Hd).
  destruct (smooth_step_far D s Hd) as (s' & Hs' & Hsame & Hcloser).
  exists s, s'. split; [exact Hs |]. simpl. rewrite Hs.
  split; [exact Hs' |]. split; [| exact Hcloser].
  assert (Hsq : 0 < (D - s) * (D - s)) by nra.
  nra.
Qed.

(** The amended C3 at the target [D = 1], first update. *)
Lemma smoothing_monotone_while_far_witness :
  exists s s' : R,
    smooth_iter 1 0 = Some s /\
    smooth_iter 1 1 = Some s' /\
    0 < (1 - s') * (1 - 0) /\
    Rabs (1 - s') < Rabs (1 - s).
Proof.
  apply (smoothing_monotone_while_far 1 0).
  intros k Hk. assert (k = 0%nat) as -> by lia.
  unfold far_from; simpl.
  rewrite Rabs_right; lra.
Defined.

End Smoothing.


(* ================================================================== *)
(** * The steering path *)
(* ================================================================== *)

Section Steering.
Import SelfDrivingCarSimulator SteeringAnglePredictor Example.

Lemma skipn_repeat {A} (x : A) (k n : nat) :
  skipn k (repeat x n) = repeat x (n - k).
Proof.
  revert k; induction n as [| n IH]; intros [| k]; simpl; try reflexivity.
  apply IH.
Qed.

Lemma bottom_150_const (h w c : nat) (v : Q) :
  bottom_150 (const_image h w c v) = const_image (h - (h - 150)) w c v.
Proof.
  unfold bottom_150, const_image.
  rewrite repeat_length. apply skipn_repeat.
Qed.

Lemma div255_const (h w c : nat) (v : Q) :
  div255 (const_image h w c v) = const_image h w c (Qred (v / 255)).
Proof.
  unfold div255, const_image. now rewrite !map_repeat.
Qed.

Lemma map_const_seq {A} (f : nat -> A) (a : A) (n s : nat) :
  (forall i, s <= i < s + n -> f i = a) -> map f (seq s n) = repeat a n.
Proof.
  revert s; induction n as [| n IH]; intros s Hf; simpl; [reflexivity |].
  rewrite (Hf s) by lia. f_equal.
  apply IH. intros i Hi. apply Hf. lia.
Qed.

Lemma nth_repeat_lt {A} (x d : A) (n i : nat) : i < n -> nth i (repeat x n) d = x.
Proof.
  revert i; induction n as [| n IH]; intros [| i] Hi; simpl; try lia; try reflexivity.
  apply IH. lia.
Qed.

Lemma scaled_index_lt (i n m : nat) : i < m -> 0 < n -> i * n / m < n.
Proof.
  intros Hi Hn. apply Nat.Div0.div_lt_upper_bound. nia.
Qed.

(** Nearest-neighbour resizing keeps a uniform image uniform. *)
Lemma nn_resize_const (h w c : nat) (v : Q) (dsize : nat * nat) :
  0 < h -> 0 < w ->
  nn_resize (const_image h w c v) dsize = const_image (snd dsize) (fst dsize) c v.
Proof.
  intros Hh Hw. destruct dsize as [W Hh']. unfold nn_resize, const_image.
  cbv beta iota zeta. simpl fst; simpl snd.
  rewrite repeat_length.
  apply map_const_seq. intros y Hy.
  rewrite nth_repeat_lt by (apply scaled_index_lt; lia).
  apply map_const_seq. intros x Hx.
  match goal with
  | |- context [length (hd ?d ?l)] => replace (length (hd d l)) with w
  end.
  - apply nth_repeat_lt. apply scaled_index_lt; lia.
  - destruct h; [lia |]. simpl. symmetry. apply repeat_length.
Qed.

Lemma nearest_neighbour_keeps_uniform : @keeps_uniform nearest_neighbour.
Proof.
  intros h w v Hh Hw. apply (nn_resize_const h w 3 v (200, 66) Hh Hw).
Qed.

(** C2, evaluated on a white frame.  The loop divides the resized crop by
    255 and [predict_angle] then resizes and divides by 255 again, so the
    batch that reaches [model.predict] for an all-255 frame holds [1/255]
    in every channel, where a single normalisation gives [1]. *)
Theorem model_input_divided_twice `{Cv2Resize} (h w : nat) :
  keeps_uniform -> 0 < h -> 0 < w ->
  (forall (m : Model) (full_image : image),
      predict_angle (resized_image full_image)
      = (predict (model_input full_image) * 180 / PI)%R) /\
  (forall full_image : image,
      model_input full_image
      = [div255 (resize (div255 (resize (bottom_150 full_image) (200, 66))) (200, 66))]) /\
  model_input (const_image h w 3 255) = [const_image 66 200 3 (1 # 255)] /\
  normalised_once (const_image h w 3 255) = [const_image 66 200 3 1].
Proof.
  intros Hu Hh Hw.
  split; [reflexivity |]. split; [reflexivity |].
  assert (Hcrop : resize (bottom_150 (const_image h w 3 255)) (200, 66)
                  = const_image 66 200 3 255).
  { rewrite bottom_150_const. apply Hu; lia. }
  split.
  - unfold model_input, preprocess_image, resized_image.
    rewrite Hcrop, div255_const, Hu by lia.
    rewrite div255_const. reflexivity.
  - unfold normalised_once. rewrite Hcrop, div255_const. reflexivity.
Qed.

(** C2 on the 2x2 white frame, with nearest-neighbour resizing. *)
Lemma model_input_divided_twice_witness :
  @model_input nearest_neighbour white_frame = [const_image 66 200 3 (1 # 255)] /\
  @normalised_once nearest_neighbour white_frame = [const_image 66 200 3 1].
Proof.
  apply (@model_input_divided_twice nearest_neighbour 2 2
           nearest_neighbour_keeps_uniform); lia.
Defined.


End Steering.


(* ================================================================== *)
(** * The simulator: construction, display update, throttle, loop *)
(* ================================================================== *)

Section Simulator.
Import SelfDrivingCarSimulator Example.

(** C6.  [__init__] reads neither [data_path] nor [img_path]: whatever is
    passed, the dataset directory is ["data/driving_dataset"], the wheel
    image is the one read from ["data/steering_wheel_image.jpg"], frames are
    looked up under the fixed directory, and the whole run is the same. *)
Theorem constructor_ignores_paths `{Cv2Resize} (w : world) (steering : image -> R)
    (segmentation : image -> image) (data_path1 img_path1 data_path2 img_path2 : string) :
  __init__ w steering segmentation data_path1 img_path1
  = __init__ w steering segmentation data_path2 img_path2 /\
  (forall fuel : nat,
      main fuel w steering segmentation data_path1 img_path1
      = main fuel w steering segmentation data_path2 img_path2) /\
  option_map data_path (__init__ w steering segmentation data_path1 img_path1)
  = option_map (fun _ => "data/driving_dataset"%string)
               (imread_gray w "data/steering_wheel_image.jpg") /\
  option_map img (__init__ w steering segmentation data_path1 img_path1)
  = imread_gray w "data/steering_wheel_image.jpg" /\
  (forall (self : simulator) (i : nat),
      __init__ w steering segmentation data_path1 img_path1 = Some self ->
      frame_path self i
      = String.append "data/driving_dataset/"
          (String.append (NilEmpty.string_of_uint (Nat.to_uint i)) ".jpg")).
Proof.
  split; [reflexivity |]. split; [reflexivity |].
  unfold __init__.
  destruct (imread_gray w "data/steering_wheel_image.jpg") as [wheel |]; simpl.
  - repeat split. intros self i [= <-]. reflexivity.
  - repeat split. intros self i [=].
Qed.

(** C4, evaluated on a wheel image of 100 rows and 200 columns.  The
    constructor unpacks [img.shape], which is (rows, columns), into
    [cols, rows]; the display update therefore rotates about the point
    (x, y) = (50, 100), where the image's centre is (100, 50), and asks for
    an output 100 wide and 200 high, where the image is 200 wide and 100
    high.  The angle is the negated new smoothed angle. *)
Theorem wheel_rotation_transposed (degrees : R) (segmented_image full_image : image) :
  __init__ slow_world (fun _ => 1%R) (fun f => f) "data" "steering_image.jpeg"
  = Some wheel_simulator /\
  shape (img wheel_simulator) = (100, 200) /\
  let d := wheel_rotation wheel_simulator (smooth degrees (smoothed_angle wheel_simulator)) in
  wheels_shown (snd (_update_display wheel_simulator degrees segmented_image full_image)) = [d] /\
  src d = img wheel_simulator /\
  angle (M d)
  = option_map Ropp
      (smoothed_angle (fst (_update_display wheel_simulator degrees segmented_image full_image))) /\
  center (M d) = (50, 100)%Q /\
  warp_width d = 100 /\
  warp_height d = 200.
Proof.
  split; [reflexivity |]. split; [reflexivity |].
  cbv zeta. repeat split.
Qed.

(** Whatever the wheel image, the output size requested from
    [cv2.warpAffine], (width, height), is the image's [shape], (rows,
    columns), and the rotation centre (x, y) is (rows / 2, columns / 2). *)
Lemma wheel_rotation_follows_shape (w : world) (steering : image -> R)
    (segmentation : image -> image) (data_path img_path : string)
    (self : simulator) (a : option R) :
  __init__ w steering segmentation data_path img_path = Some self ->
  dsize (wheel_rotation self a) = shape (img self) /\
  center (M (wheel_rotation self a))
  = (half (fst (shape (img self))), half (snd (shape (img self)))).
Proof.
  unfold __init__.
  destruct (imread_gray w "data/steering_wheel_image.jpg") as [wheel |]; [| discriminate].
  intros [= <-]. split; reflexivity.
Qed.

(** C7, evaluated on three clock readings.  Line 121 reads the clock
    0.033333 s after the iteration started, which is less than 1/30 s, and
    line 122 reads it again at 0.033334 s: [time.sleep] receives
    [-1/1500000]. *)
Theorem throttle_sleeps_negative :
  exists d : Q,
    throttle slow_world 1 (time slow_world 0) (1 # 30) = SleepRaised d /\
    (time slow_world 1 - time slow_world 0 < 1 # 30)%Q /\
    (d == - (1 # 1500000))%Q /\
    (d < 0)%Q.
Proof.
  eexists. split; [vm_compute; reflexivity |].
  split; [reflexivity |]. split; reflexivity.
Qed.

Lemma frames_shown_app (l1 l2 : list event) :
  frames_shown (l1 ++ l2) = frames_shown l1 ++ frames_shown l2.
Proof.
  induction l1 as [| e l1 IH]; [reflexivity |].
  change ((e :: l1) ++ l2) with (e :: (l1 ++ l2)).
  destruct e as [degrees | window [f | d] | d | path |]; simpl; try exact IH.
  destruct (String.eqb window "Original Frame"); [| exact IH].
  now rewrite IH.
Qed.

Lemma frames_shown_update (self : simulator) (degrees : R) (segmented full_image : image) :
  frames_shown (snd (_update_display self degrees segmented full_image)) = [full_image].
Proof. reflexivity. Qed.

Lemma data_path_update (self : simulator) (degrees : R) (segmented full_image : image) :
  data_path (fst (_update_display self degrees segmented full_image)) = data_path self.
Proof. reflexivity. Qed.


Section LoopSteps.
Context `{Cv2Resize}.
Variables (w : world) (frame_interval : Q).

Lemma loop_exhausted (fuel : nat) (self : simulator) (i tick : nat) (log : list event) :
  imread w (frame_path self i) = None ->
  loop (S fuel) w frame_interval self i tick log
  = Returned Exhausted self i
             (log ++ [PrintNotFound (frame_path self i); DestroyAllWindows]).
Proof. intros Hnone. simpl. now rewrite Hnone. Qed.

Lemma loop_raised (fuel : nat) (self : simulator) (i tick : nat) (log : list event)
    (full_image : image) (d : Q) :
  imread w (frame_path self i) = Some full_image ->
  throttle w (S tick) (time w tick) frame_interval = SleepRaised d ->
  loop (S fuel) w frame_interval self i tick log
  = Raised ValueError (fst (iteration_display self full_image)) (S i)
           (log ++ snd (iteration_display self full_image)).
Proof. intros Hread Hthr. simpl. now rewrite Hread, Hthr. Qed.

Lemma loop_slept (fuel : nat) (self : simulator) (i tick : nat) (log : list event)
    (full_image : image) (d : Q) (tick' : nat) :
  imread w (frame_path self i) = Some full_image ->
  throttle w (S tick) (time w tick) frame_interval = Slept d tick' ->
  (Z.land (waitKey w i) 255 =? 113)%Z = false ->
  loop (S fuel) w frame_interval self i tick log
  = loop fuel w frame_interval (fst (iteration_display self full_image)) (S i) tick'
         ((log ++ snd (iteration_display self full_image)) ++ [Sleep d]).
Proof. intros Hread Hthr Hkey. simpl. now rewrite Hread, Hthr, Hkey. Qed.

Lemma loop_not_slept (fuel : nat) (self : simulator) (i tick : nat) (log : list event)
    (full_image : image) (tick' : nat) :
  imread w (frame_path self i) = Some full_image ->
  throttle w (S tick) (time w tick) frame_interval = NoSleep tick' ->
  (Z.land (waitKey w i) 255 =? 113)%Z = false ->
  loop (S fuel) w frame_interval self i tick log
  = loop fuel w frame_interval (fst (iteration_display self full_image)) (S i) tick' 
         (log ++ snd (iteration_display self full_image)).
Proof. intros Hread Hthr Hkey. simpl. now rewrite Hread, Hthr, Hkey. Qed.

(** When the clock never makes line 122 negative and no key is pressed,
    the loop shows the frames [i, ..., n-1] once each, in order, and returns
    at the first missing index [n]; [S (n - i)] iterations suffice. *)
Lemma loop_runs_to_exhaustion (frames : nat -> image) (n : nat) (dir : string) :
  (forall (t0 t : nat) (d : Q),
      throttle w t (time w t0) frame_interval <> SleepRaised d) ->
  (forall k : nat, (Z.land (waitKey w k) 255 =? 113)%Z = false) ->
  (forall (self : simulator) (k : nat),
      data_path self = dir -> k < n -> imread w (frame_path self k) = Some (frames k)) ->
  (forall self : simulator, data_path self = dir -> imread w (frame_path self n) = None) ->
  forall (m i : nat), i + m = n ->
  forall (extra : nat) (self : simulator) (tick : nat) (log : list event),
    data_path self = dir ->
    exists (self' : simulator) (log' : list event),
      loop (S m + extra) w frame_interval self i tick log
      = Returned Exhausted self' n log' /\
      frames_shown log' = frames_shown log ++ map frames (seq i m).
Proof.
  intros Hclock Hkeys Hpresent Habsent.
  induction m as [| m IH]; intros i Hi extra self tick log Hdir.
  - assert (i = n) as -> by lia.
    exists self. eexists. split.
    + apply loop_exhausted. now apply Habsent.
    + rewrite frames_shown_app. simpl. reflexivity.
  - assert (Hread := Hpresent self i Hdir ltac:(lia)).
    change (S (S m) + extra) with (S (S m + extra)).
    destruct (throttle w (S tick) (time w tick) frame_interval) as [tick' | d tick' | d] eqn:Hthr.
    + rewrite (loop_not_slept _ _ _ _ _ _ _ Hread Hthr (Hkeys i)).
      destruct (IH (S i) ltac:(lia) extra (fst (iteration_display self (frames i))) tick'
                   (log ++ snd (iteration_display self (frames i))) Hdir)
        as (self' & log' & Hrun & Hshown).
      exists self', log'. split; [exact Hrun |].
      rewrite Hshown, frames_shown_app. unfold iteration_display.
      rewrite frames_shown_update. simpl. now rewrite <- app_assoc.
    + rewrite (loop_slept _ _ _ _ _ _ _ _ Hread Hthr (Hkeys i)).
      destruct (IH (S i) ltac:(lia) extra (fst (iteration_display self (frames i))) tick'
                   ((log ++ snd (iteration_display self (frames i))) ++ [Sleep d]) Hdir)
        as (self' & log' & Hrun & Hshown).
      exists self', log'. split; [exact Hrun |].
      rewrite Hshown, !frames_shown_app. unfold iteration_display.
      rewrite frames_shown_update. simpl. rewrite app_nil_r.
      now rewrite <- app_assoc.
    + exfalso. exact (Hclock _ _ _ Hthr).
Qed.

End LoopSteps.

(** C5, evaluated on a dataset of two frames.  [0.jpg] and [1.jpg] exist,
    [2.jpg] does not, no key is pressed; the clock crosses the frame
    interval between the two readings of lines 121 and 122 in the first
    iteration.  [time.sleep] raises [ValueError]: the run ends there, with
    frame 0 shown and frame 1 never loaded. *)
Theorem simulation_aborts_on_late_clock (fuel : nat) :
  imread slow_world (frame_path wheel_simulator 0) = Some white_frame /\
  imread slow_world (frame_path wheel_simulator 1) = Some white_frame /\
  imread slow_world (frame_path wheel_simulator 2) = None /\
  (Z.land (waitKey slow_world 0) 255 =? 113)%Z = false /\
  exists (self' : simulator) (log : list event),
    @main nearest_neighbour (S fuel) slow_world (fun _ => 1%R) (fun f => f)
          "data" "steering_image.jpeg"
    = Some (Raised ValueError self' 1 log) /\
    frames_shown log = [white_frame].
Proof.
  split; [reflexivity |]. split; [reflexivity |]. split; [reflexivity |].
  split; [reflexivity |].
  unfold main.
  change (__init__ slow_world (fun _ => 1%R) (fun f => f) "data" "steering_image.jpeg")
    with (Some wheel_simulator).
  unfold start_simulation.
  assert (Hread : imread slow_world (frame_path wheel_simulator 0) = Some white_frame)
    by reflexivity.
  assert (Hthr : throttle slow_world 1 (time slow_world 0) (1 # 30)
                 = SleepRaised ((1 # 30) - ((33334 # 1000000) - 0))%Q) by reflexivity.
  rewrite (@loop_raised nearest_neighbour slow_world (1 # 30) fuel wheel_simulator
             0 0 [] white_frame _ Hread Hthr).
  eexists. eexists. split; [reflexivity |]. reflexivity.
Qed.

(** The same dataset under a clock that stands still: both frames are shown,
    in order, and the loop returns at the missing index 2. *)
Lemma simulation_completes_on_still_clock :
  exists (self' : simulator) (log : list event),
    @main nearest_neighbour 3 still_world (fun _ => 1%R) (fun f => f)
          "data" "steering_image.jpeg"
    = Some (Returned Exhausted self' 2 log) /\
    frames_shown log = [white_frame; white_frame].
Proof.
  unfold main.
  change (__init__ still_world (fun _ => 1%R) (fun f => f) "data" "steering_image.jpeg")
    with (Some wheel_simulator).
  unfold start_simulation.
  destruct (@loop_runs_to_exhaustion nearest_neighbour still_world (1 # 30)
              (fun _ => white_frame) 2 "data/driving_dataset") with
    (m := 2) (i := 0) (extra := 0) (self := wheel_simulator) (tick := 0)
    (log := @nil event)
    as (self' & log' & Hrun & Hshown).
  - intros t0 t d. unfold throttle. simpl. discriminate.
  - intros k. reflexivity.
  - intros self k Hdir Hk. unfold frame_path. rewrite Hdir.
    destruct k as [| [| k]]; [reflexivity | reflexivity | lia].
  - intros self Hdir. unfold frame_path. rewrite Hdir. reflexivity.
  - reflexivity.
  - reflexivity.
  - exists self', log'. split; [now rewrite <- Hrun | exact Hshown].
Defined.

End Simulator.


(* ================================================================== *)
(** * ImageSegmentation.process and the store *)
(* ================================================================== *)

Section Segmentation.
Import ImageSegmentation.
Context `{Cv2Draw}.

Lemma only_touches_refl (overlay : nat) (h : gmap nat image) : only_touches overlay h h.
Proof. split; [reflexivity | intros; reflexivity]. Qed.

Lemma only_touches_trans (overlay : nat) (h1 h2 h3 : gmap nat image) :
  only_touches overlay h1 h2 -> only_touches overlay h2 h3 -> only_touches overlay h1 h3.
Proof.
  intros [Hd12 Hl12] [Hd23 Hl23]. split; [congruence |].
  intros r Hr. rewrite Hl23, Hl12 by exact Hr. reflexivity.
Qed.

Lemma draw_only_touches (overlay : nat) (h : gmap nat image) (f : image -> image) :
  only_touches overlay h (draw h overlay f).
Proof.
  unfold draw. split; [apply dom_alter_L |].
  intros r Hr. apply lookup_alter_ne. congruence.
Qed.

Lemma fold_only_touches {A} (overlay : nat) (step : gmap nat image -> A -> gmap nat image)
    (l : list A) :
  (forall h a, only_touches overlay h (step h a)) ->
  forall h, only_touches overlay h (fold_left step l h).
Proof.
  intros Hstep. induction l as [| a l IH]; intros h; simpl.
  - apply only_touches_refl.
  - eapply only_touches_trans; [apply Hstep | apply IH].
Qed.

Lemma lane_overlay_only_touches (overlay : nat) (h : gmap nat image)
    (lane_results : list detections) :
  only_touches overlay h (_draw_lane_overlay h overlay lane_results).
Proof.
  unfold _draw_lane_overlay. apply fold_only_touches.
  intros h0 res. destruct (masks res) as [xy |]; [| apply only_touches_refl].
  apply fold_only_touches. intros h1 mask. apply draw_only_touches.
Qed.

Lemma draw_object_only_touches (self : segmentation) (overlay : nat) (h : gmap nat image)
    (mask : polygon) (b : box) :
  only_touches overlay h (draw_object self h overlay mask b).1.
Proof.
  unfold draw_object.
  destruct (py_index (colors self) (py_int (cls b))) as [c |];
    [| apply only_touches_refl].
  destruct (xyxy b) as [[[x1 y1] x2] y2].
  destruct (names (object_model self) !! py_int (cls b)) as [name |]; simpl.
  - destruct (getTextSize _) as [label_w label_h]. simpl.
    repeat (eapply only_touches_trans; [| apply draw_only_touches]).
    apply only_touches_refl.
  - repeat (eapply only_touches_trans; [| apply draw_only_touches]).
    apply only_touches_refl.
Qed.

Lemma draw_objects_only_touches (self : segmentation) (overlay : nat)
    (items : list (polygon * box)) (h : gmap nat image) :
  only_touches overlay h (draw_objects self h overlay items).1.
Proof.
  revert h. induction items as [| [mask b] items IH]; intros h; simpl.
  - apply only_touches_refl.
  - assert (Hone := draw_object_only_touches self overlay h mask b).
    destruct (draw_object self h overlay mask b) as [h1 [[] | e]]; simpl in *.
    + eapply only_touches_trans; [exact Hone | apply IH].
    + exact Hone.
Qed.

Lemma object_overlay_only_touches (self : segmentation) (overlay : nat)
    (object_results : list detections) (h : gmap nat image) :
  only_touches overlay h (_draw_object_overlay self h overlay object_results).1.
Proof.
  revert h. induction object_results as [| res rest IH]; intros h; simpl.
  - apply only_touches_refl.
  - destruct (masks res) as [xy |]; [| apply IH].
    assert (Hone := draw_objects_only_touches self overlay (combine xy (boxes res)) h).
    destruct (draw_objects self h overlay (combine xy (boxes res))) as [h1 [[] | e]];
      simpl in *.
    + eapply only_touches_trans; [exact Hone | apply IH].
    + exact Hone.
Qed.

(** With class ids that have a colour and a name, drawing does not raise. *)
Lemma draw_object_ok (self : segmentation) (overlay : nat) (h : gmap nat image)
    (mask : polygon) (b : box) :
  box_ok self b -> (draw_object self h overlay mask b).2 = Ok tt.
Proof.
  intros [[c Hc] [name Hname]]. unfold draw_object. rewrite Hc.
  destruct (xyxy b) as [[[x1 y1] x2] y2]. rewrite Hname.
  destruct (getTextSize _) as [label_w label_h]. reflexivity.
Qed.

Lemma draw_objects_ok (self : segmentation) (overlay : nat)
    (items : list (polygon * box)) (h : gmap nat image) :
  Forall (fun mb => box_ok self mb.2) items ->
  (draw_objects self h overlay items).2 = Ok tt.
Proof.
  revert h. induction items as [| [mask b] items IH]; intros h Hok; simpl.
  - reflexivity.
  - apply Forall_cons_1 in Hok as [Hb Hrest]. simpl in Hb.
    assert (Hone := draw_object_ok self overlay h mask b Hb).
    destruct (draw_object self h overlay mask b) as [h1 r]; simpl in Hone; subst r.
    apply IH. exact Hrest.
Qed.

Lemma combine_boxes_ok (self : segmentation) (xy : list polygon) (bs : list box) :
  Forall (box_ok self) bs -> Forall (fun mb => box_ok self mb.2) (combine xy bs).
Proof.
  revert bs. induction xy as [| m xy IH]; intros [| b bs] Hok; simpl;
    try (constructor; fail).
  apply Forall_cons_1 in Hok as [Hb Hrest].
  constructor; [exact Hb | apply IH; exact Hrest].
Qed.

Lemma object_overlay_ok (self : segmentation) (overlay : nat)
    (object_results : list detections) (h : gmap nat image) :
  Forall (detections_ok self) object_results ->
  (_draw_object_overlay self h overlay object_results).2 = Ok tt.
Proof.
  revert h. induction object_results as [| res rest IH]; intros h Hok; simpl.
  - reflexivity.
  - apply Forall_cons_1 in Hok as [Hres Hrest].
    destruct (masks res) as [xy |]; [| apply IH; exact Hrest].
    assert (Hone := draw_objects_ok self overlay (combine xy (boxes res)) h
                      (combine_boxes_ok self xy (boxes res) Hres)).
    destruct (draw_objects self h overlay (combine xy (boxes res))) as [h1 r];
      simpl in Hone; subst r.
    apply IH. exact Hrest.
Qed.

(** C8.  [process] draws on a copy: every array of the store, the input
    frame among them, holds after the call what it held before, whether the
    call returns or raises.  When the class ids of the object results have a
    colour and a name the call returns, and what it returns is a new array:
    a reference different from the input's and not in the store before the
    call, holding the blend of the annotated copy with the input frame. *)
Theorem process_leaves_input_unchanged (self : segmentation) (h : gmap nat image)
    (img : nat) (v : image) (alpha : Q) :
  h !! img = Some v ->
  (forall (r : nat) (u : image),
      h !! r = Some u -> (process self h img alpha).1 !! r = Some u) /\
  (Forall (detections_ok self) (predict (object_model self) v (1 # 2)) ->
   exists (out : nat) (o : image),
     (process self h img alpha).2 = Ok out /\
     out <> img /\
     h !! out = None /\
     (process self h img alpha).1 !! out = Some (addWeighted o alpha v (1 - alpha) 0)).
Proof.
  intros Himg. unfold process. rewrite Himg. unfold alloc. cbv beta iota zeta.
  set (overlay := fresh (dom h)).
  assert (Hfresh : h !! overlay = None).
  { apply not_elem_of_dom. apply is_fresh. }
  set (h1 := <[overlay := v]> h).
  set (h2 := _draw_lane_overlay h1 overlay (predict (lane_model self) v (1 # 2))).
  assert (H12 : only_touches overlay h1 h2) by apply lane_overlay_only_touches.
  assert (H23 := object_overlay_only_touches self overlay
                   (predict (object_model self) v (1 # 2)) h2).
  assert (Hok := object_overlay_ok self overlay
                   (predict (object_model self) v (1 # 2)) h2).
  destruct (_draw_object_overlay self h2 overlay (predict (object_model self) v (1 # 2)))
    as [h3 res]. simpl in H23, Hok.
  assert (H13 : only_touches overlay h1 h3) by (eapply only_touches_trans; eassumption).
  destruct H13 as [Hdom Hsame].
  assert (Hold : forall (r : nat) (u : image), h !! r = Some u -> h3 !! r = Some u).
  { intros r u Hr. assert (r <> overlay) by congruence.
    rewrite Hsame by assumption. unfold h1. rewrite lookup_insert_ne by congruence.
    exact Hr. }
  assert (Hover : is_Some (h3 !! overlay)).
  { apply elem_of_dom. rewrite Hdom. apply elem_of_dom. unfold h1.
    rewrite lookup_insert_eq. eauto. }
  destruct Hover as [o Ho].
  assert (Hnew : forall r : nat, h3 !! r = None -> h !! r = None).
  { intros r Hr. destruct (h !! r) as [u |] eqn:E; [| reflexivity].
    rewrite (Hold r u E) in Hr. discriminate. }
  split.
  - intros r u Hr. destruct res as [[] | e]; simpl; [| apply Hold; exact Hr].
    rewrite Ho, (Hold img v Himg). unfold alloc. simpl.
    rewrite lookup_insert_ne; [apply Hold; exact Hr |].
    intros <-. assert (Hnone : h3 !! fresh (dom h3) = None)
      by (apply not_elem_of_dom, is_fresh).
    rewrite (Hold _ u Hr) in Hnone. discriminate.
  - intros Hres. rewrite (Hok Hres). simpl.
    rewrite Ho, (Hold img v Himg). unfold alloc. simpl.
    assert (Hnone : h3 !! fresh (dom h3) = None) by (apply not_elem_of_dom, is_fresh).
    exists (fresh (dom h3)), o. split; [reflexivity |]. split.
    + intros E. rewrite E, (Hold img v Himg) in Hnone. discriminate.
    + split; [apply Hnew; exact Hnone | apply lookup_insert_eq].
Qed.

End Segmentation.

(** C8 at a store with one white frame, one detected lane and one detected
    car. *)
Lemma process_leaves_input_unchanged_witness :
  (forall (r : nat) (u : image),
      Example.one_frame !! r = Some u ->
      (@ImageSegmentation.process Example.toy_draw Example.toy_segmentation
         Example.one_frame 0 (1 # 2)).1 !! r = Some u) /\
  (Forall (@ImageSegmentation.detections_ok Example.toy_segmentation)
          (ImageSegmentation.predict
             (ImageSegmentation.object_model Example.toy_segmentation)
             Example.white_frame (1 # 2)) ->
   exists (out : nat) (o : image),
     (@ImageSegmentation.process Example.toy_draw Example.toy_segmentation
        Example.one_frame 0 (1 # 2)).2 = Ok out /\
     out <> 0 /\
     Example.one_frame !! out = None /\
     (@ImageSegmentation.process Example.toy_draw Example.toy_segmentation
        Example.one_frame 0 (1 # 2)).1 !! out
     = Some (@ImageSegmentation.addWeighted Example.toy_draw o (1 # 2)
               Example.white_frame (1 - (1 # 2)) 0)).
Proof.
  apply (@process_leaves_input_unchanged Example.toy_draw Example.toy_segmentation
           Example.one_frame 0 Example.white_frame (1 # 2)).
  reflexivity.
Defined.


(* ================================================================== *)
(** * The class palette *)
(* ================================================================== *)

Section Palette.
Local Open Scope Z_scope.



















Lemma append_loop {A B} (f : A -> B) (l : list A) (acc : list B) :
  fold_left (fun colors i => colors ++ [f i]) l acc = acc ++ map f l.
Proof.
  revert acc. induction l as [| a l IH]; intros acc; simpl.
  - now rewrite app_nil_r.
  - rewrite IH. now rewrite <- app_assoc.
Qed.

Lemma generate_colors_map (n : nat) :
  _generate_colors n = map (class_color n) (seq 0 n).
Proof. unfold _generate_colors. now rewrite append_loop. Qed.





End Palette.

(* ================================================================== *)
(** * More on the smoothing filter *)
(* ================================================================== *)

Section SmoothingDynamics.
Import SelfDrivingCarSimulator.
Local Open Scope R_scope.

Lemma Rpower_0008_two_thirds : Rpower 0.008 (2 / 3) = 0.04.
Proof.
  replace 0.008 with (Rpower 0.2 (INR 3)).
  - rewrite Rpower_mult.
    replace (INR 3 * (2 / 3)) with (INR 2) by (simpl; field).
    rewrite Rpower_pow by lra. simpl; lra.
  - rewrite Rpower_pow by lra. simpl; lra.
Qed.

(** Beyond [0.008] the correction is larger than [0.008]. *)
Lemma correction_gt_0008 (e : R) : 0.008 < e -> 0.008 < 0.2 * Rpower e (2 / 3).
Proof.
  intros He.
  assert (H : Rpower 0.008 (2 / 3) < Rpower e (2 / 3)) by (apply Rlt_Rpower_l; lra).
  rewrite Rpower_0008_two_thirds in H. lra.
Qed.

(** Within [0.008] the correction is smaller than [0.008]. *)
Lemma correction_lt_0008 (e : R) : 0 < e < 0.008 -> 0.2 * Rpower e (2 / 3) < 0.008.
Proof.
  intros He.
  assert (H : Rpower e (2 / 3) < Rpower 0.008 (2 / 3)) by (apply Rlt_Rpower_l; lra).
  rewrite Rpower_0008_two_thirds in H. lra.
Qed.



(** X2.  The update depends on the error alone: shifting the predicted and
    the smoothed angle by the same amount shifts the result by that amount,
    and negating both negates the result (left and right turns are treated
    alike). *)
Theorem smooth_depends_on_error_only (degrees s c : R) :
  smooth (degrees + c) (Some (s + c))
  = option_map (fun x => x + c) (smooth degrees (Some s)) /\
  smooth (- degrees) (Some (- s)) = option_map Ropp (smooth degrees (Some s)).
Proof.
  destruct (Req_EM_T degrees s) as [-> | Hne].
  - rewrite !smooth_equal. split; reflexivity.
  - split.
    + destruct (Rlt_le_dec s degrees) as [Hlt | Hge].
      * rewrite !smooth_above by lra. simpl. f_equal.
        replace (degrees + c - (s + c)) with (degrees - s) by ring. ring.
      * rewrite !smooth_below by lra. simpl. f_equal.
        replace (s + c - (degrees + c)) with (s - degrees) by ring. ring.
    + destruct (Rlt_le_dec s degrees) as [Hlt | Hge].
      * rewrite (smooth_above degrees s) by lra.
        rewrite smooth_below by lra. simpl. f_equal.
        replace (- s - - degrees) with (degrees - s) by ring. ring.
      * rewrite (smooth_below degrees s) by lra.
        rewrite smooth_above by lra. simpl. f_equal.
        replace (- degrees - - s) with (s - degrees) by ring. ring.
Qed.

(** X3.  From closer than [0.008] to the predicted angle (and not on it),
    the update lands on the other side of the predicted angle and still
    closer than [0.008] to it. *)
Theorem smooth_stays_near_prediction (degrees s : R) :
  0 < Rabs (degrees - s) < 0.008 ->
  exists s' : R,
    smooth degrees (Some s) = Some s' /\
    (degrees - s') * (degrees - s) < 0 /\
    Rabs (degrees - s') < 0.008.
Proof.
  intros [Hpos Hnear].
  destruct (Rlt_le_dec s degrees) as [Hlt | Hge].
  - rewrite (Rabs_right (degrees - s)) in * by lra.
    assert (Hc := correction_gt_error (degrees - s) ltac:(lra)).
    assert (Hd := correction_lt_0008 (degrees - s) ltac:(lra)).
    exists (s + 0.2 * Rpower (degrees - s) (2 / 3)).
    split; [apply smooth_above; lra |]. split; [nra |].
    rewrite Rabs_left by lra. lra.
  - assert (Hne : degrees < s).
    { destruct Hge as [Hlt | Heq]; [exact Hlt |].
      subst s. replace (degrees - degrees) with 0 in Hpos by ring.
      rewrite Rabs_R0 in Hpos. lra. }
    rewrite (Rabs_left (degrees - s)) in * by lra.
    assert (Hc := correction_gt_error (s - degrees) ltac:(lra)).
    assert (Hd := correction_lt_0008 (s - degrees) ltac:(lra)).
    exists (s - 0.2 * Rpower (s - degrees) (2 / 3)).
    split; [apply smooth_below; lra |]. split; [nra |].
    rewrite Rabs_right by lra. lra.
Qed.

(** X3 at a predicted angle of 0.004 degrees and a smoothed angle of 0. *)
Lemma smooth_stays_near_prediction_witness :
  exists s' : R,
    smooth 0.004 (Some 0) = Some s' /\
    (0.004 - s') * (0.004 - 0) < 0 /\
    Rabs (0.004 - s') < 0.008.
Proof.
  apply (smooth_stays_near_prediction 0.004 0).
  rewrite Rabs_right; lra.
Defined.

(** X4.  Around every predicted angle the filter has an orbit of period two
    at distance [0.001]: from [0.001] below it jumps to [0.001] above, and
    back.  A constant prediction need not be approached. *)
Theorem smooth_period_two_orbit (degrees : R) :
  smooth degrees (Some (degrees - 1 / 1000)) = Some (degrees + 1 / 1000) /\
  smooth degrees (Some (degrees + 1 / 1000)) = Some (degrees - 1 / 1000).
Proof.
  split.
  - rewrite smooth_above by lra.
    replace (degrees - (degrees - 1 / 1000)) with (1 / 1000) by ring.
    rewrite Rpower_thousandth. f_equal. lra.
  - rewrite smooth_below by lra.
    replace (degrees + 1 / 1000 - degrees) with (1 / 1000) by ring.
    rewrite Rpower_thousandth. f_equal. lra.
Qed.



(** One update from further than [0.008] away reduces the distance by more
    than [0.008]. *)
Lemma smooth_step_far_progress (D s : R) :
  0.008 < Rabs (D - s) ->
  exists s', smooth D (Some s) = Some s' /\ Rabs (D - s') < Rabs (D - s) - 0.008.
Proof.
  intros Hfar.
  destruct (Rlt_le_dec s D) as [Hlt | Hge].
  - rewrite (Rabs_right (D - s)) in * by lra.
    assert (Hc := correction_lt_error (D - s) Hfar).
    assert (Hd := correction_gt_0008 (D - s) Hfar).
    exists (s + 0.2 * Rpower (D - s) (2 / 3)).
    split; [apply smooth_above; lra |]. rewrite Rabs_right by lra. lra.
  - assert (Hne : D < s).
    { destruct Hge as [Hlt | Heq]; [exact Hlt |].
      subst s. replace (D - D) with 0 in Hfar by ring.
      rewrite Rabs_R0 in Hfar. lra. }
    rewrite (Rabs_left (D - s)) in * by lra.
    assert (Hc := correction_lt_error (s - D) ltac:(lra)).
    assert (Hd := correction_gt_0008 (s - D) ltac:(lra)).
    exists (s - 0.2 * Rpower (s - D) (2 / 3)).
    split; [apply smooth_below; lra |]. rewrite Rabs_left by lra. lra.
Qed.

Lemma smooth_iter_progress (D : R) (n : nat) :
  (exists (k : nat) (s : R),
      (k <= n)%nat /\ smooth_iter D k = Some s /\ Rabs (D - s) <= 0.008) \/
  (exists s : R,
      smooth_iter D n = Some s /\ 0.008 < Rabs (D - s) /\
      Rabs (D - s) <= Rabs D - INR n * 0.008).
Proof.
  induction n as [| n IH].
  - replace (Rabs D - INR 0 * 0.008) with (Rabs (D - 0))
      by (simpl; replace (D - 0) with D by ring; ring).
    destruct (Rle_lt_dec (Rabs (D - 0)) 0.008) as [Hle | Hgt].
    + left. exists 0%nat, 0. repeat split; [lia | exact Hle].
    + right. exists 0. repeat split; [exact Hgt | lra].
  - destruct IH as [(k & s & Hk & Hs & Hnear) | (s & Hs & Hfar & Hbound)].
    + left. exists k, s. repeat split; [lia | exact Hs | exact Hnear].
    + destruct (smooth_step_far_progress D s Hfar) as (s' & Hs' & Hless).
      assert (Hnext : smooth_iter D (S n) = Some s') by (simpl; rewrite Hs; exact Hs').
      destruct (Rle_lt_dec (Rabs (D - s')) 0.008) as [Hle | Hgt].
      * left. exists (S n), s'. repeat split; [lia | exact Hnext | exact Hle].
      * right. exists s'. split; [exact Hnext |]. split; [exact Hgt |].
        rewrite S_INR. lra.
Qed.

(** X6.  With a constant predicted angle [D] and the smoothed angle
    starting at [0], at most [|D| / 0.008] updates bring the smoothed angle
    within [0.008] of [D]. *)
Theorem smoothing_reaches_neighbourhood (D : R) (n : nat) :
  Rabs D <= INR n * 0.008 ->
  exists (k : nat) (s : R),
    (k <= n)%nat /\ smooth_iter D k = Some s /\ Rabs (D - s) <= 0.008.
Proof.
  intros Hn.
  destruct (smooth_iter_progress D n) as [Hreached | (s & _ & Hfar & Hbound)];
    [exact Hreached | lra].
Qed.

(** X6 for a predicted angle of 0.016 degrees: two updates suffice. *)
Lemma smoothing_reaches_neighbourhood_witness :
  exists (k : nat) (s : R),
    (k <= 2)%nat /\ smooth_iter 0.016 k = Some s /\ Rabs (0.016 - s) <= 0.008.
Proof.
  apply (smoothing_reaches_neighbourhood 0.016 2).
  rewrite Rabs_right by lra. simpl. lra.
Defined.

Lemma smooth_all_undefined (angles : list R) : smooth_all angles None = None.
Proof. induction angles as [| d angles IH]; [reflexivity | exact IH]. Qed.

(** X7.  Once a predicted angle equals the smoothed angle reached so far,
    the smoothed angle is undefined after that frame and after every later
    one, whatever is predicted next. *)
Theorem smoothed_angle_stays_undefined (before after : list R) (start : option R)
    (degrees : R) :
  smooth_all before start = Some degrees ->
  smooth_all (before ++ degrees :: after) start = None.
Proof.
  intros Hhit. unfold smooth_all in *.
  rewrite fold_left_app, Hhit. cbn [fold_left].
  rewrite smooth_equal. exact (smooth_all_undefined after).
Qed.

(** X7 when the first prediction is exactly 0 degrees, the constructor's
    smoothed angle. *)
Lemma smoothed_angle_stays_undefined_witness :
  smooth_all ([] ++ 0 :: [10; 20]) (Some 0) = None.
Proof.
  apply (smoothed_angle_stays_undefined [] [10; 20] (Some 0) 0).
  reflexivity.
Defined.

End SmoothingDynamics.

(* ================================================================== *)
(** * More on the steering path *)
(* ================================================================== *)

Section SteeringRanges.
Import SelfDrivingCarSimulator SteeringAnglePredictor Example.


Lemma Forall_skipn_keeps {A} (P : A -> Prop) (n : nat) (l : list A) :
  Forall P l -> Forall P (skipn n l).
Proof.
  intros Hl. rewrite <- (firstn_skipn n l) in Hl.
  apply List.Forall_app in Hl. tauto.
Qed.

(** X9.  [full_image[-150:]] is a suffix of the frame with
    [min(rows, 150)] rows; a frame of at most 150 rows is passed on whole
    (no error, no padding). *)
Theorem bottom_150_is_suffix (full_image : image) :
  length (bottom_150 full_image) = Nat.min (length full_image) 150 /\
  (exists top : image, full_image = top ++ bottom_150 full_image) /\
  (length full_image <= 150 -> bottom_150 full_image = full_image).
Proof.
  unfold bottom_150. split; [rewrite length_skipn; lia |]. split.
  - exists (firstn (length full_image - 150) full_image).
    symmetry. apply firstn_skipn.
  - intros Hshort. replace (length full_image - 150) with 0 by lia. reflexivity.
Qed.

Lemma div255_channels (lo hi : Q) (img : image) :
  channels_in lo hi img -> channels_in (lo / 255) (hi / 255) (div255 img).
Proof.
  unfold channels_in, div255. intros Himg.
  apply List.Forall_map. revert Himg. apply List.Forall_impl.
  intros row Hrow. apply List.Forall_map. revert Hrow. apply List.Forall_impl.
  intros px Hpx. apply List.Forall_map. revert Hpx. apply List.Forall_impl.
  intros x [Hlo Hhi]. rewrite Qred_correct. split.
  - apply Qmult_le_compat_r; [exact Hlo | discriminate].
  - apply Qmult_le_compat_r; [exact Hhi | discriminate].
Qed.

Lemma channels_in_weaken (lo hi lo' hi' : Q) (img : image) :
  (lo' <= lo)%Q -> (hi <= hi')%Q -> channels_in lo hi img -> channels_in lo' hi' img.
Proof.
  intros Hlo Hhi. unfold channels_in.
  apply List.Forall_impl. intros row.
  apply List.Forall_impl. intros px.
  apply List.Forall_impl. intros x [H1 H2]. split.
  - eapply Qle_trans; eassumption.
  - eapply Qle_trans; eassumption.
Qed.

Lemma Forall_nth_or_default {A} (P : A -> Prop) (l : list A) (i : nat) (d : A) :
  Forall P l -> P d -> P (nth i l d).
Proof.
  intros Hl Hd. revert i. induction Hl as [| a l Ha Hl IH]; intros [| i]; simpl; auto.
Qed.

Lemma nn_resize_keeps_range : @keeps_range nearest_neighbour.
Proof.
  intros lo hi img [w h] Himg. simpl. unfold nn_resize, channels_in in *.
  apply List.Forall_map. apply List.Forall_forall. intros y _.
  apply List.Forall_map. apply List.Forall_forall. intros x _.
  apply Forall_nth_or_default; [| constructor].
  apply Forall_nth_or_default; [exact Himg | constructor].
Qed.

(** X10.  On a raw frame (channel values in [0,255]), with a resize that
    keeps values within the range of its input, [preprocess_image] returns a
    batch of one image whose channel values all lie in [0,1]. *)
Theorem preprocess_image_range `{Cv2Resize} (img : image) :
  keeps_range -> channels_in 0 255 img ->
  exists out : image,
    preprocess_image img = [out] /\ channels_in 0 1 out /\
    dims out = dims (resize img (200, 66)).
Proof.
  intros Hkeep Himg. exists (div255 (resize img (200, 66))).
  split; [reflexivity |]. split.
  - apply (channels_in_weaken (0 / 255) (255 / 255)); [discriminate | discriminate |].
    apply div255_channels. apply Hkeep. exact Himg.
  - unfold dims, div255. rewrite !map_map. apply map_ext. intros row.
    rewrite !map_map. apply map_ext. intros px. apply length_map.
Qed.

(** X10 on the 2x2 white frame, with nearest-neighbour resizing. *)
Lemma preprocess_image_range_witness :
  exists out : image,
    @preprocess_image nearest_neighbour white_frame = [out] /\ channels_in 0 1 out /\
    dims out = dims (@resize nearest_neighbour white_frame (200, 66)).
Proof.
  apply (@preprocess_image_range nearest_neighbour white_frame nn_resize_keeps_range).
  unfold white_frame, channels_in, const_image. simpl.
  repeat constructor; discriminate.
Defined.

(** X11.  In the loop a raw frame is divided by 255 twice on its way to the
    model: with a resize that keeps values within the range of its input,
    every channel value of the batch that reaches [model.predict] lies in
    [0, 1/255]. *)
Theorem model_input_range `{Cv2Resize} (full_image : image) :
  keeps_range -> channels_in 0 255 full_image ->
  Forall (channels_in 0 (1 # 255)) (model_input full_image).
Proof.
  intros Hkeep Himg. unfold model_input, preprocess_image, resized_image.
  constructor; [| constructor].
  apply (channels_in_weaken (0 / 255 / 255) (255 / 255 / 255));
    [discriminate | discriminate |].
  apply div255_channels. apply Hkeep. apply div255_channels. apply Hkeep.
  unfold bottom_150. apply Forall_skipn_keeps. exact Himg.
Qed.

(** X11 on the 2x2 white frame, with nearest-neighbour resizing. *)
Lemma model_input_range_witness :
  Forall (channels_in 0 (1 # 255)) (@model_input nearest_neighbour white_frame).
Proof.
  apply (@model_input_range nearest_neighbour white_frame nn_resize_keeps_range).
  unfold white_frame, channels_in, const_image. simpl.
  repeat constructor; discriminate.
Defined.

End SteeringRanges.

(* ================================================================== *)
(** * More on the palette and the overlays *)
(* ================================================================== *)

Section Overlays.
Import ImageSegmentation.
Local Open Scope Z_scope.



(** X13.  The segmentation constructor makes one colour per entry of the
    object model's name dictionary, so [self.colors[class_id]] succeeds
    exactly for [-N <= class_id < N], [N] being the number of names: a
    negative id down to [-N] does not raise, it counts from the end. *)
Theorem colors_cover_names (lane object : yolo) (class_id : Z) :
  length (colors (__init__ lane object)) = size (names object) /\
  (is_Some (py_index (colors (__init__ lane object)) class_id) <->
   - Z.of_nat (size (names object)) <= class_id < Z.of_nat (size (names object))) /\
  (- Z.of_nat (size (names object)) <= class_id < 0 ->
   py_index (colors (__init__ lane object)) class_id
   = nth_error (colors (__init__ lane object))
               (Z.to_nat (Z.of_nat (size (names object)) + class_id))).
Proof.
  assert (Hlen : length (colors (__init__ lane object)) = size (names object)).
  { simpl. rewrite generate_colors_map, length_map. apply length_seq. }
  split; [exact Hlen |].
  unfold py_index. rewrite Hlen.
  split.
  - destruct (Z.leb_spec 0 class_id) as [Hpos | Hneg].
    + rewrite <- not_eq_None_Some, nth_error_None, Hlen. lia.
    + destruct (Z.leb_spec (- Z.of_nat (size (names object))) class_id) as [Hin | Hout].
      * rewrite <- not_eq_None_Some, nth_error_None, Hlen. lia.
      * split; [intros [c Hc]; discriminate | lia].
  - intros Hneg.
    destruct (Z.leb_spec 0 class_id) as [Hpos | _]; [lia |].
    destruct (Z.leb_spec (- Z.of_nat (size (names object))) class_id) as [Hin | Hout];
      [reflexivity | lia].
Qed.

Lemma object_overlay_app `{Cv2Draw} (self : segmentation) (overlay : nat)
    (first rest : list detections) (h : gmap nat image) :
  (_draw_object_overlay self h overlay first).2 = Ok tt ->
  _draw_object_overlay self h overlay (first ++ rest)
  = _draw_object_overlay self (_draw_object_overlay self h overlay first).1 overlay rest.
Proof.
  revert h. induction first as [| res first IH]; intros h Hok; simpl in *.
  - reflexivity.
  - destruct (masks res) as [xy |]; [| apply IH; exact Hok].
    destruct (draw_objects self h overlay (combine xy (boxes res))) as [h1 [[] | e]].
    + apply IH. exact Hok.
    + discriminate.
Qed.

(** X14.  An object result whose first box has a class id without a colour
    aborts the drawing with [IndexError]: the results before it stay drawn
    on the overlay, this one and all later ones are not drawn. *)
Theorem object_overlay_stops_at_first_error `{Cv2Draw} (self : segmentation) (h : gmap nat image)
    (overlay : nat) (before after : list detections)
    (mask : polygon) (b : box) (more_masks : list polygon) (more_boxes : list box) :
  Forall (detections_ok self) before ->
  py_index (colors self) (py_int (cls b)) = None ->
  _draw_object_overlay self h overlay
    (before ++ {| masks := Some (mask :: more_masks); boxes := b :: more_boxes |} :: after)
  = ((_draw_object_overlay self h overlay before).1, Raise IndexError).
Proof.
  intros Hbefore Hbad.
  rewrite object_overlay_app by (apply object_overlay_ok; exact Hbefore).
  simpl. unfold draw_object. rewrite Hbad. reflexivity.
Qed.

(** X14 with one car drawn before a detection of the unknown class 7. *)
Lemma object_overlay_stops_at_first_error_witness :
  @_draw_object_overlay Example.toy_draw Example.toy_segmentation Example.one_frame 0%nat
    ([Scenes.car_detection]
       ++ {| masks := Some (Example.square :: []); boxes := Scenes.stray_box :: [] |}
       :: [Scenes.car_detection])
  = ((@_draw_object_overlay Example.toy_draw Example.toy_segmentation Example.one_frame
        0%nat [Scenes.car_detection]).1,
     Raise IndexError).
Proof.
  apply (@object_overlay_stops_at_first_error Example.toy_draw Example.toy_segmentation).
  - repeat constructor; simpl; eexists; reflexivity.
  - reflexivity.
Defined.

Lemma lane_overlay_maskless `{Cv2Draw} (h : gmap nat image) (overlay : nat)
    (lane_results : list detections) :
  Forall (fun res => masks res = None) lane_results ->
  _draw_lane_overlay h overlay lane_results = h.
Proof.
  unfold _draw_lane_overlay. induction 1 as [| res rest Hres _ IH]; simpl.
  - reflexivity.
  - rewrite Hres. exact IH.
Qed.

Lemma object_overlay_maskless `{Cv2Draw} (self : segmentation) (h : gmap nat image) (overlay : nat)
    (object_results : list detections) :
  Forall (fun res => masks res = None) object_results ->
  _draw_object_overlay self h overlay object_results = (h, Ok tt).
Proof.
  induction 1 as [| res rest Hres _ IH]; simpl.
  - reflexivity.
  - rewrite Hres. exact IH.
Qed.

(** X15.  When no result of either model carries masks, nothing is drawn,
    boxes included (their class ids are not even looked up), and [process]
    returns the blend of the frame with an unmodified copy of itself. *)
Theorem process_without_masks `{Cv2Draw} (self : segmentation) (h : gmap nat image)
    (img : nat) (v : image) (alpha : Q) :
  h !! img = Some v ->
  Forall (fun res => masks res = None) (predict (lane_model self) v (1 # 2)) ->
  Forall (fun res => masks res = None) (predict (object_model self) v (1 # 2)) ->
  exists out : nat,
    (process self h img alpha).2 = Ok out /\
    (process self h img alpha).1 !! out = Some (addWeighted v alpha v (1 - alpha) 0) /\
    (process self h img alpha).1 !! img = Some v.
Proof.
  intros Himg Hlane Hobject. unfold process. rewrite Himg. unfold alloc.
  cbv beta iota zeta.
  rewrite (lane_overlay_maskless _ _ _ Hlane).
  rewrite (object_overlay_maskless _ _ _ _ Hobject).
  assert (Hne : fresh (dom h) <> img).
  { intros E. assert (Hnone : h !! fresh (dom h) = None)
      by (apply not_elem_of_dom, is_fresh).
    rewrite E, Himg in Hnone. discriminate. }
  rewrite lookup_insert_eq, lookup_insert_ne, Himg by exact Hne.
  set (h1 := <[fresh (dom h) := v]> h).
  assert (Himg1 : h1 !! img = Some v).
  { unfold h1. rewrite lookup_insert_ne by exact Hne. exact Himg. }
  exists (fresh (dom h1)). cbn [fst snd].
  split; [reflexivity |]. split; [apply lookup_insert_eq |].
  rewrite lookup_insert_ne; [exact Himg1 |].
  intros E. assert (Hnone : h1 !! fresh (dom h1) = None)
    by (apply not_elem_of_dom, is_fresh).
  rewrite E, Himg1 in Hnone. discriminate.
Qed.

(** X15 on one white frame, with models that report a box of the unknown
    class 7 and no masks. *)
Lemma process_without_masks_witness :
  exists out : nat,
    (@process Example.toy_draw Scenes.maskless_segmentation Example.one_frame 0%nat
       (1 # 2)).2 = Ok out /\
    (@process Example.toy_draw Scenes.maskless_segmentation Example.one_frame 0%nat
       (1 # 2)).1 !! out
    = Some (@addWeighted Example.toy_draw Example.white_frame (1 # 2)
              Example.white_frame (1 - (1 # 2)) 0) /\
    (@process Example.toy_draw Scenes.maskless_segmentation Example.one_frame 0%nat
       (1 # 2)).1 !! 0%nat = Some Example.white_frame.
Proof.
  apply (@process_without_masks Example.toy_draw Scenes.maskless_segmentation
           Example.one_frame 0%nat Example.white_frame (1 # 2)).
  - reflexivity.
  - repeat constructor.
  - repeat constructor.
Defined.

Lemma combine_surplus_r {A B} (l : list A) (l' more : list B) :
  length l = length l' -> combine l (l' ++ more) = combine l l'.
Proof.
  revert l'. induction l as [| a l IH]; intros [| b l'] Hlen; simpl in *;
    try discriminate; try reflexivity.
  f_equal. apply IH. lia.
Qed.

Lemma combine_surplus_l {A B} (l more : list A) (l' : list B) :
  length l = length l' -> combine (l ++ more) l' = combine l l'.
Proof.
  revert l'. induction l as [| a l IH]; intros [| b l'] Hlen; simpl in *;
    try discriminate.
  - destruct more; reflexivity.
  - f_equal. apply IH. lia.
Qed.

(** X16.  Polygons and boxes of a result are paired in order: boxes beyond
    the number of polygons, and polygons beyond the number of boxes, are
    not drawn and cannot raise. *)
Theorem surplus_boxes_and_masks_ignored `{Cv2Draw} (self : segmentation) (h : gmap nat image)
    (overlay : nat) (xy more_masks : list polygon) (bs more_boxes : list box) :
  length xy = length bs ->
  _draw_object_overlay self h overlay [{| masks := Some xy; boxes := bs ++ more_boxes |}]
  = _draw_object_overlay self h overlay [{| masks := Some xy; boxes := bs |}] /\
  _draw_object_overlay self h overlay [{| masks := Some (xy ++ more_masks); boxes := bs |}]
  = _draw_object_overlay self h overlay [{| masks := Some xy; boxes := bs |}].
Proof.
  intros Hlen. simpl.
  rewrite combine_surplus_r, combine_surplus_l by exact Hlen.
  split; reflexivity.
Qed.

(** X16 with one polygon, its car box and a surplus box of the unknown
    class 7. *)
Lemma surplus_boxes_and_masks_ignored_witness :
  @_draw_object_overlay Example.toy_draw Example.toy_segmentation Example.one_frame 0%nat
    [{| masks := Some [Example.square]; boxes := [Example.car_box] ++ [Scenes.stray_box] |}]
  = @_draw_object_overlay Example.toy_draw Example.toy_segmentation Example.one_frame 0%nat
      [{| masks := Some [Example.square]; boxes := [Example.car_box] |}] /\
  @_draw_object_overlay Example.toy_draw Example.toy_segmentation Example.one_frame 0%nat
    [{| masks := Some ([Example.square] ++ [Example.square]); boxes := [Example.car_box] |}]
  = @_draw_object_overlay Example.toy_draw Example.toy_segmentation Example.one_frame 0%nat
      [{| masks := Some [Example.square]; boxes := [Example.car_box] |}].
Proof.
  apply (@surplus_boxes_and_masks_ignored Example.toy_draw Example.toy_segmentation
           Example.one_frame 0%nat [Example.square] [Example.square]
           [Example.car_box] [Scenes.stray_box]).
  reflexivity.
Defined.

Lemma fold_draw_lookup {A} (overlay : nat) (paint : A -> image -> image) (l : list A)
    (h : gmap nat image) :
  fold_left (fun h a => draw h overlay (paint a)) l h !! overlay
  = fold_left (fun im a => paint a im) l <$> h !! overlay.
Proof.
  revert h. induction l as [| a l IH]; intros h; simpl.
  - destruct (h !! overlay); reflexivity.
  - rewrite IH. unfold draw. rewrite lookup_alter_eq.
    destruct (h !! overlay); reflexivity.
Qed.

(** X17.  Drawing the lane results into the store changes the array behind
    [overlay] into the one obtained by filling, in order, every polygon of
    every result that has masks, in light green; a missing array stays
    missing. *)
Theorem lane_overlay_is_lane_paint `{Cv2Draw} (h : gmap nat image) (overlay : nat)
    (lane_results : list detections) :
  _draw_lane_overlay h overlay lane_results !! overlay
  = lane_paint lane_results <$> h !! overlay.
Proof.
  unfold _draw_lane_overlay, lane_paint, lane_polygons.
  revert h. induction lane_results as [| res rest IH]; intros h; simpl.
  - destruct (h !! overlay); reflexivity.
  - rewrite IH. destruct (masks res) as [xy |].
    + rewrite (fold_draw_lookup overlay
                 (fun mask im => fillPoly im (int32_points mask) (144, 238, 144))).
      destruct (h !! overlay) as [im |]; [| reflexivity].
      simpl. f_equal. now rewrite fold_left_app.
    + reflexivity.
Qed.

End Overlays.

(* ================================================================== *)
(** * More on the simulator loop *)
(* ================================================================== *)

Section LoopInvariants.
Import SelfDrivingCarSimulator.

(** Case analysis on one iteration, by induction on the iterations left:
    a property of the outcome holds for every run when it holds for each way
    the loop can end and is carried back over an iteration that goes on. *)
Lemma loop_cases `{Cv2Resize} (w : world) (frame_interval : Q)
    (P : simulator -> nat -> nat -> list event -> outcome -> Prop) :
  (forall self i tick log, P self i tick log OutOfFuel) ->
  (forall self i tick log,
      imread w (frame_path self i) = None ->
      P self i tick log
        (Returned Exhausted self i
                  (log ++ [PrintNotFound (frame_path self i); DestroyAllWindows]))) ->
  (forall self i tick log full_image d,
      imread w (frame_path self i) = Some full_image ->
      throttle w (S tick) (time w tick) frame_interval = SleepRaised d ->
      P self i tick log
        (Raised ValueError (iteration_display self full_image).1 (S i)
                (log ++ (iteration_display self full_image).2))) ->
  (forall self i tick log full_image d tick',
      imread w (frame_path self i) = Some full_image ->
      throttle w (S tick) (time w tick) frame_interval = Slept d tick' ->
      quits (waitKey w i) = true ->
      P self i tick log
        (Returned UserQuit (iteration_display self full_image).1 (S i)
                  ((log ++ (iteration_display self full_image).2)
                     ++ [Sleep d; DestroyAllWindows]))) ->
  (forall self i tick log full_image tick',
      imread w (frame_path self i) = Some full_image ->
      throttle w (S tick) (time w tick) frame_interval = NoSleep tick' ->
      quits (waitKey w i) = true ->
      P self i tick log
        (Returned UserQuit (iteration_display self full_image).1 (S i)
                  ((log ++ (iteration_display self full_image).2) ++ [DestroyAllWindows]))) ->
  (forall self i tick log full_image d tick' o,
      imread w (frame_path self i) = Some full_image ->
      throttle w (S tick) (time w tick) frame_interval = Slept d tick' ->
      quits (waitKey w i) = false ->
      P (iteration_display self full_image).1 (S i) tick'
        ((log ++ (iteration_display self full_image).2) ++ [Sleep d]) o ->
      P self i tick log o) ->
  (forall self i tick log full_image tick' o,
      imread w (frame_path self i) = Some full_image ->
      throttle w (S tick) (time w tick) frame_interval = NoSleep tick' ->
      quits (waitKey w i) = false ->
      P (iteration_display self full_image).1 (S i) tick'
        (log ++ (iteration_display self full_image).2) o ->
      P self i tick log o) ->
  forall fuel self i tick log,
    P self i tick log (loop fuel w frame_interval self i tick log).
Proof.
  intros Hfuel Hexh Hraise Hquit1 Hquit2 Hgo1 Hgo2.
  induction fuel as [| fuel IH]; intros self i tick log; [apply Hfuel |].
  destruct (imread w (frame_path self i)) as [full_image |] eqn:Hread.
  - destruct (throttle w (S tick) (time w tick) frame_interval)
      as [tick' | d tick' | d] eqn:Hthr.
    + destruct (quits (waitKey w i)) eqn:Hkey.
      * assert (Hrun : loop (S fuel) w frame_interval self i tick log
                       = Returned UserQuit (iteration_display self full_image).1 (S i)
                           ((log ++ (iteration_display self full_image).2)
                              ++ [DestroyAllWindows])).
        { unfold quits in Hkey. simpl. now rewrite Hread, Hthr, Hkey. }
        rewrite Hrun. eapply Hquit2; eassumption.
      * rewrite (loop_not_slept w frame_interval fuel self i tick log full_image tick'
                   Hread Hthr Hkey).
        eapply Hgo2; eauto.
    + destruct (quits (waitKey w i)) eqn:Hkey.
      * assert (Hrun : loop (S fuel) w frame_interval self i tick log
                       = Returned UserQuit (iteration_display self full_image).1 (S i)
                           ((log ++ (iteration_display self full_image).2)
                              ++ [Sleep d; DestroyAllWindows])).
        { unfold quits in Hkey. simpl. now rewrite Hread, Hthr, Hkey. }
        rewrite Hrun. eapply Hquit1; eassumption.
      * rewrite (loop_slept w frame_interval fuel self i tick log full_image d tick'
                   Hread Hthr Hkey).
        eapply Hgo1; eauto.
    + rewrite (loop_raised w frame_interval fuel self i tick log full_image d Hread Hthr).
      eapply Hraise; eassumption.
  - rewrite (loop_exhausted w frame_interval fuel self i tick log Hread). now apply Hexh.
Qed.

Lemma printed_angles_app (l1 l2 : list event) :
  printed_angles (l1 ++ l2) = printed_angles l1 ++ printed_angles l2.
Proof.
  induction l1 as [| e l1 IH]; [reflexivity |].
  destruct e; simpl; rewrite ?IH; reflexivity.
Qed.

Lemma windows_destroyed_app (l1 l2 : list event) :
  windows_destroyed (l1 ++ l2) = windows_destroyed l1 + windows_destroyed l2.
Proof.
  induction l1 as [| e l1 IH]; [reflexivity |].
  destruct e; simpl; rewrite ?IH; reflexivity.
Qed.

Lemma same_setup_refl (a : simulator) : same_setup a a.
Proof. repeat split. Qed.

(** The facts of [loop_trace] for a run, from those for the part of it
    that follows its first iteration. *)
Lemma trace_extend `{Cv2Resize} (w : world) (self : simulator) (i n : nat) (f : image)
    (between added : list event) (self' : simulator) :
  imread w (frame_path self i) = Some f ->
  S i <= n ->
  frames_shown between = [] ->
  printed_angles between = [] ->
  map Some (frames_shown added)
  = map (fun k => imread w (frame_path self k)) (seq (S i) (n - S i)) ->
  printed_angles added
  = map (fun g => steering_model self (resized_image g)) (frames_shown added) ->
  smoothed_angle self'
  = smooth_all (printed_angles added)
               (smooth (steering_model self (resized_image f)) (smoothed_angle self)) ->
  map Some (frames_shown ((iteration_display self f).2 ++ between ++ added))
  = map (fun k => imread w (frame_path self k)) (seq i (n - i)) /\
  printed_angles ((iteration_display self f).2 ++ between ++ added)
  = map (fun g => steering_model self (resized_image g))
        (frames_shown ((iteration_display self f).2 ++ between ++ added)) /\
  smoothed_angle self'
  = smooth_all (printed_angles ((iteration_display self f).2 ++ between ++ added))
               (smoothed_angle self).
Proof.
  intros Hread Hn Hbf Hbp Hframes Hangles Hsmooth.
  rewrite !frames_shown_app, !printed_angles_app, Hbf, Hbp.
  change (frames_shown (iteration_display self f).2) with [f].
  change (printed_angles (iteration_display self f).2)
    with [steering_model self (resized_image f)].
  replace (n - i) with (S (n - S i)) by lia.
  simpl. rewrite Hread, Hframes. split; [reflexivity |]. split.
  - f_equal. exact Hangles.
  - exact Hsmooth.
Qed.

(** What a run that ended has done since iteration [i]: the frames it
    showed are the dataset's frames from index [i] on, the angles it printed
    are the steering model's answers on them, and the state differs from the
    initial one by the smoothing of those angles. *)
Lemma loop_trace `{Cv2Resize} (w : world) (frame_interval : Q) (fuel : nat)
    (self : simulator) (i tick : nat) (log : list event) :
  ended (loop fuel w frame_interval self i tick log)
    (fun self' n log' =>
       i <= n /\ same_setup self self' /\
       exists added : list event,
         log' = log ++ added /\
         map Some (frames_shown added)
         = map (fun k => imread w (frame_path self k)) (seq i (n - i)) /\
         printed_angles added
         = map (fun f => steering_model self (resized_image f)) (frames_shown added) /\
         smoothed_angle self' = smooth_all (printed_angles added) (smoothed_angle self)).
Proof.
  revert fuel self i tick log.
  apply (loop_cases w frame_interval
           (fun self i tick log o =>
              ended o
                (fun self' n log' =>
                   i <= n /\ same_setup self self' /\
                   exists added : list event,
                     log' = log ++ added /\
                     map Some (frames_shown added)
                     = map (fun k => imread w (frame_path self k)) (seq i (n - i)) /\
                     printed_angles added
                     = map (fun f => steering_model self (resized_image f))
                           (frames_shown added) /\
                     smoothed_angle self'
                     = smooth_all (printed_angles added) (smoothed_angle self)))).
  - intros; exact I.
  - intros self i tick log Hread. simpl.
    split; [lia |]. split; [apply same_setup_refl |].
    eexists. split; [reflexivity |].
    rewrite Nat.sub_diag. repeat split.
  - intros self i tick log f d Hread Hthr. simpl.
    split; [lia |]. split; [repeat split |].
    eexists. split; [reflexivity |].
    replace (S i - i) with 1 by lia. simpl. rewrite Hread. repeat split.
  - intros self i tick log f d tick' Hread Hthr Hkey. simpl.
    split; [lia |]. split; [repeat split |].
    eexists. split; [rewrite <- app_assoc; reflexivity |].
    replace (S i - i) with 1 by lia. simpl. rewrite Hread. repeat split.
  - intros self i tick log f tick' Hread Hthr Hkey. simpl.
    split; [lia |]. split; [repeat split |].
    eexists. split; [rewrite <- app_assoc; reflexivity |].
    replace (S i - i) with 1 by lia. simpl. rewrite Hread. repeat split.
  - intros self i tick log f d tick' o Hread Hthr Hkey IH.
    destruct o as [why self' n log' | e self' n log' |]; cbn [ended] in *; [| | exact I];
      destruct IH as (Hn & Hsetup & added & Hlog & Hframes & Hangles & Hsmooth);
      (split; [lia |]); (split; [exact Hsetup |]);
      exists ((iteration_display self f).2 ++ [Sleep d] ++ added);
      (split; [rewrite Hlog, <- !app_assoc; reflexivity |]);
      apply (trace_extend w self i n f [Sleep d] added self'
               Hread Hn eq_refl eq_refl Hframes Hangles Hsmooth).
  - intros self i tick log f tick' o Hread Hthr Hkey IH.
    destruct o as [why self' n log' | e self' n log' |]; cbn [ended] in *; [| | exact I];
      destruct IH as (Hn & Hsetup & added & Hlog & Hframes & Hangles & Hsmooth);
      (split; [lia |]); (split; [exact Hsetup |]);
      exists ((iteration_display self f).2 ++ [] ++ added);
      (split; [rewrite Hlog, <- !app_assoc; reflexivity |]);
      apply (trace_extend w self i n f [] added self'
               Hread Hn eq_refl eq_refl Hframes Hangles Hsmooth).
Qed.

(** X18.  In every run that ends, by returning or by raising, the frames
    shown in the "Original Frame" window are exactly the dataset's frames
    0, 1, ..., n-1, each once and in this order, where [n] is the final
    value of the frame index. *)
Theorem run_shows_dataset_frames_in_order `{Cv2Resize} (fuel : nat) (w : world)
    (self : simulator) (frame_interval : Q) :
  ended (start_simulation fuel w self frame_interval)
    (fun _ n log =>
       map Some (frames_shown log)
       = map (fun k => imread w (frame_path self k)) (seq 0 n) /\
       length (frames_shown log) = n).
Proof.
  unfold start_simulation.
  assert (Htrace := loop_trace w frame_interval fuel self 0 0 []).
  destruct (loop fuel w frame_interval self 0 0 []) as [why self' n log | e self' n log |];
    cbn [ended] in *; [| | exact I];
    destruct Htrace as (_ & _ & added & Hlog & Hframes & _);
    simpl in Hlog; subst added; rewrite Nat.sub_0_r in Hframes;
    (split; [exact Hframes |]);
    apply (f_equal (@length (option image))) in Hframes;
    rewrite !length_map, length_seq in Hframes; exact Hframes.
Qed.

(** X19.  A run changes nothing of the simulator but [smoothed_angle]: in
    every run that ends, the angles printed are the steering model's
    answers on the crops of the frames shown, and the final smoothed angle
    is the initial one updated with these angles in order. *)
Theorem run_changes_only_smoothed_angle `{Cv2Resize} (fuel : nat) (w : world)
    (self : simulator) (frame_interval : Q) :
  ended (start_simulation fuel w self frame_interval)
    (fun self' _ log =>
       same_setup self self' /\
       printed_angles log
       = map (fun f => steering_model self (resized_image f)) (frames_shown log) /\
       smoothed_angle self' = smooth_all (printed_angles log) (smoothed_angle self)).
Proof.
  unfold start_simulation.
  assert (Htrace := loop_trace w frame_interval fuel self 0 0 []).
  destruct (loop fuel w frame_interval self 0 0 []) as [why self' n log | e self' n log |];
    cbn [ended] in *; [| | exact I];
    destruct Htrace as (_ & Hsetup & added & Hlog & _ & Hangles & Hsmooth);
    simpl in Hlog; subst added; repeat split; assumption || apply Hsetup.
Qed.



(** X21.  [cv2.destroyAllWindows()] is called exactly once, as the last
    action, by every run that returns, and not at all by a run that ends in
    an exception. *)
Theorem windows_destroyed_on_return_only `{Cv2Resize} (fuel : nat) (w : world)
    (self : simulator) (frame_interval : Q) :
  match start_simulation fuel w self frame_interval with
  | Returned _ _ _ log =>
      windows_destroyed log = 1 /\ exists before, log = before ++ [DestroyAllWindows]
  | Raised _ _ _ log => windows_destroyed log = 0
  | OutOfFuel => True
  end.
Proof.
  unfold start_simulation.
  assert (Hgen : forall fuel self i tick log,
            match loop fuel w frame_interval self i tick log with
            | Returned _ _ _ log' =>
                windows_destroyed log' = S (windows_destroyed log) /\
                exists before, log' = before ++ [DestroyAllWindows]
            | Raised _ _ _ log' => windows_destroyed log' = windows_destroyed log
            | OutOfFuel => True
            end).
  { apply (loop_cases w frame_interval
             (fun self i tick log o =>
                match o with
                | Returned _ _ _ log' =>
                    windows_destroyed log' = S (windows_destroyed log) /\
                    exists before, log' = before ++ [DestroyAllWindows]
                | Raised _ _ _ log' => windows_destroyed log' = windows_destroyed log
                | OutOfFuel => True
                end)).
    - intros; exact I.
    - intros self0 i tick log Hread. split.
      + rewrite windows_destroyed_app. simpl. lia.
      + exists (log ++ [PrintNotFound (frame_path self0 i)]).
        now rewrite <- app_assoc.
    - intros self0 i tick log f d Hread Hthr.
      rewrite windows_destroyed_app. simpl. lia.
    - intros self0 i tick log f d tick' Hread Hthr Hkey. split.
      + rewrite !windows_destroyed_app. simpl. lia.
      + exists ((log ++ (iteration_display self0 f).2) ++ [Sleep d]).
        now rewrite <- !app_assoc.
    - intros self0 i tick log f tick' Hread Hthr Hkey. split.
      + rewrite !windows_destroyed_app. simpl. lia.
      + eexists. reflexivity.
    - intros self0 i tick log f d tick' o Hread Hthr Hkey IH.
      destruct o as [why self' n log' | e self' n log' |]; [| | exact I];
        rewrite !windows_destroyed_app in IH; simpl in IH.
      + destruct IH as [Hcount Hlast]. split; [lia | exact Hlast].
      + lia.
    - intros self0 i tick log f tick' o Hread Hthr Hkey IH.
      destruct o as [why self' n log' | e self' n log' |]; [| | exact I];
        rewrite !windows_destroyed_app in IH; simpl in IH.
      + destruct IH as [Hcount Hlast]. split; [lia | exact Hlast].
      + lia. }
  specialize (Hgen fuel self 0 0 []).
  destruct (loop fuel w frame_interval self 0 0 []) as [why self' n log | e self' n log |];
    simpl in Hgen; [| | exact I].
  - destruct Hgen as [Hcount Hlast]. split; [lia | exact Hlast].
  - exact Hgen.
Qed.

Lemma loop_ends_by_missing_frame `{Cv2Resize} (w : world) (frame_interval : Q)
    (n extra : nat) :
  forall (m : nat) (self : simulator) (i tick : nat) (log : list event),
    i + m = n ->
    imread w (frame_path self n) = None ->
    match loop (S m + extra) w frame_interval self i tick log with
    | Returned _ _ k _ => k <= n
    | Raised _ _ k _ => k <= n
    | OutOfFuel => False
    end.
Proof.
  induction m as [| m IH]; intros self i tick log Hi Hnone.
  - assert (i = n) as -> by lia.
    rewrite (loop_exhausted w frame_interval (0 + extra) self n tick log Hnone). lia.
  - change (S (S m) + extra) with (S (S m + extra)).
    destruct (imread w (frame_path self i)) as [f |] eqn:Hread.
    + destruct (throttle w (S tick) (time w tick) frame_interval)
        as [tick' | d tick' | d] eqn:Hthr.
      * destruct (quits (waitKey w i)) eqn:Hkey.
        -- assert (Hrun : loop (S (S m + extra)) w frame_interval self i tick log
                          = Returned UserQuit (iteration_display self f).1 (S i)
                              ((log ++ (iteration_display self f).2)
                                 ++ [DestroyAllWindows])).
           { unfold quits in Hkey. simpl. now rewrite Hread, Hthr, Hkey. }
           rewrite Hrun. lia.
        -- rewrite (loop_not_slept w frame_interval (S m + extra) self i tick log f tick'
                      Hread Hthr Hkey).
           apply IH; [lia | exact Hnone].
      * destruct (quits (waitKey w i)) eqn:Hkey.
        -- assert (Hrun : loop (S (S m + extra)) w frame_interval self i tick log
                          = Returned UserQuit (iteration_display self f).1 (S i)
                              ((log ++ (iteration_display self f).2)
                                 ++ [Sleep d; DestroyAllWindows])).
           { unfold quits in Hkey. simpl. now rewrite Hread, Hthr, Hkey. }
           rewrite Hrun. lia.
        -- rewrite (loop_slept w frame_interval (S m + extra) self i tick log f d tick'
                      Hread Hthr Hkey).
           apply IH; [lia | exact Hnone].
      * rewrite (loop_raised w frame_interval (S m + extra) self i tick log f d Hread Hthr).
        lia.
    + rewrite (loop_exhausted w frame_interval (S m + extra) self i tick log Hread). lia.
Qed.

(** X22.  If the frame with index [n] is missing, the loop ends within
    [n + 1] iterations whatever the clock and the keyboard do, at a frame
    index of at most [n]. *)
Theorem run_ends_by_first_missing_frame `{Cv2Resize} (w : world) (self : simulator)
    (frame_interval : Q) (n extra : nat) :
  imread w (frame_path self n) = None ->
  match start_simulation (S n + extra) w self frame_interval with
  | Returned _ _ k _ => k <= n
  | Raised _ _ k _ => k <= n
  | OutOfFuel => False
  end.
Proof.
  intros Hnone. unfold start_simulation.
  apply loop_ends_by_missing_frame; [lia | exact Hnone].
Qed.

(** X22 on the two-frame dataset with the clock that crosses the frame
    interval. *)
Lemma run_ends_by_first_missing_frame_witness :
  match @start_simulation Example.nearest_neighbour (S 2 + 0) Example.slow_world
          Example.wheel_simulator (1 # 30) with
  | Returned _ _ k _ => k <= 2
  | Raised _ _ k _ => k <= 2
  | OutOfFuel => False
  end.
Proof.
  apply (@run_ends_by_first_missing_frame Example.nearest_neighbour Example.slow_world
           Example.wheel_simulator (1 # 30) 2 0).
  reflexivity.
Defined.






(** X25.  For a square wheel image the display update rotates it about its
    own centre, by the negated new smoothed angle, into an output of the
    image's own width and height. *)
Theorem square_wheel_rotates_about_centre (w : world) (steering : image -> R)
    (segmentation : image -> image) (data_path img_path : string)
    (self : simulator) (side : nat) (degrees : R) (segmented_image full_image : image) :
  __init__ w steering segmentation data_path img_path = Some self ->
  shape (img self) = (side, side) ->
  exists d : warp,
    wheels_shown (snd (_update_display self degrees segmented_image full_image)) = [d] /\
    src d = img self /\
    center (M d) = (half side, half side) /\
    angle (M d)
    = option_map Ropp
        (smoothed_angle (fst (_update_display self degrees segmented_image full_image))) /\
    warp_width d = side /\
    warp_height d = side.
Proof.
  intros Hinit Hshape.
  destruct (wheel_rotation_follows_shape w steering segmentation data_path img_path self
              (smooth degrees (smoothed_angle self)) Hinit) as [Hsize Hcentre].
  exists (wheel_rotation self (smooth degrees (smoothed_angle self))).
  split; [reflexivity |]. split; [reflexivity |].
  rewrite Hshape in Hsize, Hcentre.
  split; [exact Hcentre |]. split; [reflexivity |].
  unfold warp_width, warp_height. rewrite Hsize. split; reflexivity.
Qed.

(** X25 on a wheel image of 240 by 240. *)
Lemma square_wheel_rotates_about_centre_witness :
  exists (self : simulator) (d : warp),
    wheels_shown (snd (_update_display self 1%R [] [])) = [d] /\
    src d = img self /\
    center (M d) = (half 240, half 240) /\
    angle (M d) = option_map Ropp (smoothed_angle (fst (_update_display self 1%R [] []))) /\
    warp_width d = 240 /\
    warp_height d = 240.
Proof.
  eexists.
  apply (square_wheel_rotates_about_centre Scenes.square_world (fun _ => 1%R) (fun f => f)
           "data" "steering_image.jpeg" _ 240 1%R [] []).
  - reflexivity.
  - reflexivity.
Defined.

Lemma string_length_append (a b : string) :
  String.length (String.append a b) = String.length a + String.length b.
Proof. induction a as [| c a IH]; simpl; [reflexivity | now rewrite IH]. Qed.

Lemma append_cancel_l (s a b : string) :
  String.append s a = String.append s b -> a = b.
Proof.
  induction s as [| c s IH]; simpl; intros Heq; [exact Heq |].
  injection Heq as Heq. apply IH. exact Heq.
Qed.

Lemma append_cancel_r (a b c : string) :
  String.append a c = String.append b c -> a = b.
Proof.
  revert b. induction a as [| x a IH]; intros [| y b] Heq; simpl in Heq.
  - reflexivity.
  - apply (f_equal String.length) in Heq.
    rewrite !string_length_append in Heq. simpl in Heq.
    rewrite ?string_length_append in Heq. lia.
  - apply (f_equal String.length) in Heq.
    rewrite !string_length_append in Heq. simpl in Heq.
    rewrite ?string_length_append in Heq. lia.
  - injection Heq as -> Heq. f_equal. apply IH. exact Heq.
Qed.

(** X26.  Frame file names are the dataset directory, a slash, the index
    in decimal and ".jpg": two indices give the same path only when they are
    equal, so no frame file is read for two different indices. *)
Theorem frame_path_injective (self : simulator) (i j : nat) :
  frame_path self i = frame_path self j <-> i = j.
Proof.
  split; [| intros ->; reflexivity].
  unfold frame_path. intros Heq.
  apply append_cancel_l in Heq. apply append_cancel_l in Heq.
  apply append_cancel_r in Heq.
  apply (f_equal NilEmpty.uint_of_string) in Heq.
  rewrite !NilEmpty.usu in Heq. injection Heq as Heq.
  apply DecimalNat.Unsigned.to_uint_inj. exact Heq.
Qed.

End LoopInvariants.
